(** * A shallow embedding of the MIUI proxy gateway

    The development follows the Go sources file by file:

    - [util.go]    identity synthesis ([newUserKey], [newOAID], ...);
    - [store.go]   the conversation cache, the write queue and the
                   cleanup loop, followed by the upstream client and its
                   event-stream parser ([MiuiClient], [Chat]);
    - [server.go]  request options, user keys and [performChat].

    Go strings are byte strings and are modelled by [string].  The few
    standard-library routines whose behaviour depends on Unicode tables
    or on the JSON grammar are taken through the interfaces [Strings]
    and [JSON]; an instance for 7-bit text is provided to run the code
    on concrete inputs. *)

From Stdlib Require Import ZArith Ascii String DecimalString.
From stdpp Require Import gmap strings list fin_maps.

(** ** Byte-level helpers of package [strings] *)

Module GoString.

(** [strings.HasPrefix s prefix]. *)
Definition HasPrefix (s prefix : string) : bool := String.prefix prefix s.

(** The slice expression [s[n:]] for [n <= len(s)]. *)
Fixpoint sliceFrom (n : nat) (s : string) : string :=
  match n, s with
  | O, _ => s
  | S n', String _ s' => sliceFrom n' s'
  | S _, EmptyString => EmptyString
  end.

(** [strings.TrimPrefix s prefix]. *)
Definition TrimPrefix (s prefix : string) : string :=
  if HasPrefix s prefix then sliceFrom (String.length prefix) s else s.

(** [strings.Contains s substr]. *)
Fixpoint Contains (s substr : string) : bool :=
  HasPrefix s substr ||
  match s with
  | EmptyString => false
  | String _ s' => Contains s' substr
  end.

(** [strings.HasSuffix s suffix], used to state the model-name rules. *)
Definition HasSuffix (s suffix : string) : Prop := ∃ p, s = p +:+ suffix.

(** Bytes below [utf8.RuneSelf]. *)
Definition isASCIIByte (c : ascii) : bool :=
  match c with Ascii _ _ _ _ _ _ _ b7 => negb b7 end.

Fixpoint isASCII (s : string) : bool :=
  match s with
  | EmptyString => true
  | String c s' => isASCIIByte c && isASCII s'
  end.

(** Lower-casing of one byte of the 7-bit range: ['A'..'Z'] move by 32. *)
Definition lowerByte (c : ascii) : ascii :=
  let n := N_of_ascii c in
  if ((65 <=? n) && (n <=? 90))%N then ascii_of_N (n + 32) else c.

Fixpoint lowerASCII (s : string) : string :=
  match s with
  | EmptyString => EmptyString
  | String c s' => String (lowerByte c) (lowerASCII s')
  end.

(** The [asciiSpace] table of package [strings]. *)
Definition asciiSpace (c : ascii) : bool := Ascii.is_space c.

Fixpoint trimLeftASCII (s : string) : string :=
  match s with
  | EmptyString => EmptyString
  | String c s' => if asciiSpace c then trimLeftASCII s' else s
  end.

Fixpoint trimRightASCII (s : string) : string :=
  match s with
  | EmptyString => EmptyString
  | String c s' =>
      match trimRightASCII s' with
      | EmptyString => if asciiSpace c then EmptyString else String c EmptyString
      | r => String c r
      end
  end.

(** Trimming of the [asciiSpace] characters at both ends. *)
Definition trimSpace7 (s : string) : string := trimRightASCII (trimLeftASCII s).

End GoString.
Export GoString.

(** The Unicode-aware routines of package [strings].  On 7-bit text Go
    trims the [asciiSpace] characters and lower-cases byte by byte; on
    other text it works rune by rune, and a 7-bit byte is always a rune
    of its own, which gives the two concatenation laws. *)
Class Strings := {
  TrimSpace : string → string;
  ToLower : string → string;
  TrimSpace_ascii : ∀ s, isASCII s = true → TrimSpace s = trimSpace7 s;
  ToLower_ascii : ∀ s, isASCII s = true → ToLower s = lowerASCII s;
  ToLower_app_l : ∀ s t, isASCII s = true → ToLower (s +:+ t) = ToLower s +:+ ToLower t;
  ToLower_app_r : ∀ s t, isASCII t = true → ToLower (s +:+ t) = ToLower s +:+ ToLower t;
}.

(** ** Errors *)

(** The error values the gateway tells apart: the two sentinels of
    package [io], the one of package [database/sql], the upstream status
    error built by [Chat], and every other error (transport, context
    cancellation, JSON syntax, SQL). *)
Inductive error :=
| io_EOF
| io_ErrUnexpectedEOF
| sql_ErrNoRows
| errUpstreamHTTP (status : string)
| errOther (msg : string).

#[global]
Instance error_eq_dec : EqDecision error.
Proof. solve_decision. Defined.

(** [errors.Is(err, io.EOF)]. *)
Definition isEOF (e : error) : bool :=
  match e with io_EOF => true | _ => false end.

(** [errors.Is(err, sql.ErrNoRows)]. *)
Definition isErrNoRows (e : error) : bool :=
  match e with sql_ErrNoRows => true | _ => false end.

(** [errors.Is(err, io.EOF)] on a possibly nil error. *)
Definition errIsEOF (err : option error) : bool :=
  match err with Some e => isEOF e | None => false end.

(** ** store.go: messages *)

Record Message := { Source : string; Content : string }.

(** ** The upstream client: the stream chunk and the JSON/gzip codecs *)

Record intentionInfo := { IntentionText : string; End_ : bool }.

Record miuiStreamChunk := {
  Answer : string;
  IntentionInfo : option intentionInfo;
}.

(** Package [encoding/json] (and [compress/gzip]) as used by the gateway.
    [json.Unmarshal] reports syntax and type errors of its own and never
    the sentinel [io.EOF]. *)
Class JSON := {
  unmarshalChunk : string → error + miuiStreamChunk;
  marshalHistory : list Message → error + string;
  unmarshalHistory : string → list Message;
  gzipBytes : string → error + list Z;
  unmarshalChunk_not_EOF : ∀ s e, unmarshalChunk s = inl e → isEOF e = false;
}.

(** ** util.go *)

(** [fmt.Sprintf("%d", n)]. *)
Definition formatInt (n : Z) : string := NilZero.string_of_int (Z.to_int n).

(** One byte as two lower-case hexadecimal digits. *)
Definition hexDigit (n : N) : ascii :=
  if (n <? 10)%N then ascii_of_N (48 + n) else ascii_of_N (87 + n).

(** [hex.EncodeToString]. *)
Fixpoint hexEncode (buf : list ascii) : string :=
  match buf with
  | [] => EmptyString
  | b :: buf' =>
      let n := N_of_ascii b in
      String (hexDigit (n / 16)) (String (hexDigit (n mod 16)) (hexEncode buf'))
  end.

(** The value of a hexadecimal digit, and [hex.DecodeString]. *)
Definition unhexDigit (c : ascii) : N :=
  let n := N_of_ascii c in
  if (n <? 58)%N then (n - 48)%N else (n - 87)%N.

Fixpoint hexDecode (s : string) : list ascii :=
  match s with
  | String a (String b s') => ascii_of_N (unhexDigit a * 16 + unhexDigit b) :: hexDecode s'
  | _ => []
  end.

(** The characters ['0'..'9'] and ['a'..'f']. *)
Definition isHexDigit (c : ascii) : bool :=
  let n := N_of_ascii c in
  (((48 <=? n) && (n <=? 57)) || ((97 <=? n) && (n <=? 102)))%N.

Fixpoint allHex (s : string) : bool :=
  match s with
  | EmptyString => true
  | String c s' => isHexDigit c && allHex s'
  end.

(** [make([]byte, n)]. *)
Definition makeBytes (n : nat) : list ascii := replicate n "000"%char.

(** [rand.Read(buf)]: the bytes [entropy] of the system source go to the
    front of [buf]; what the source fails to deliver stays as it was. *)
Definition randRead (entropy buf : list ascii) : list ascii :=
  take (length buf) entropy ++ drop (length entropy) buf.

(** [newUserKey]. *)
Definition newUserKey (entropy : list ascii) : string :=
  "anon_" +:+ hexEncode (randRead entropy (makeBytes 12)).

(** [newOAID]. *)
Definition newOAID (entropy : list ascii) : string :=
  hexEncode (randRead entropy (makeBytes 8)).

(** [newMiID]: [n] is the draw of [rand.Int] below 9000000000. *)
Definition newMiID (n : Z) : string := formatInt (n + 1000000000).

(** [newConversationID] and [newSearchID], given the reading of [nowMillis]. *)
Definition newConversationID (oaid : string) (nowMillis : Z) : string :=
  oaid +:+ formatInt nowMillis.

Definition newSearchID (oaid : string) (nowMillis : Z) : string :=
  oaid +:+ formatInt nowMillis.

(** ** store.go: conversations *)

(** A [time.Time] is the number of nanoseconds since the epoch. *)
Abbreviation Time := Z (only parsing).

Definition second : Z := 1000000000.
Definition persistAfter : Z := 30 * second.
Definition evictAfter : Z := 60 * second.
Definition cleanupPeriod : Z := 5 * second.

(** [t.Unix()]. *)
Definition Unix (t : Time) : Z := (t / second)%Z.

Record Conversation := {
  UserKey : string;
  ConversationID : string;
  OAID : string;
  MiID : string;
  InternalID : string;
  InUse : Z;
  History : list Message;
  LastActive : Time;
  LastPersist : Time;
  Dirty : bool;
}.

(** Arithmetic of [int32]: [atomic.AddInt32] wraps around. *)
Definition wrap32 (z : Z) : Z := ((z + 2147483648) mod 4294967296 - 2147483648)%Z.

Definition atomicAddInt32 (delta : Z) (conv : Conversation) : Conversation :=
  {| UserKey := UserKey conv; ConversationID := ConversationID conv;
     OAID := OAID conv; MiID := MiID conv; InternalID := InternalID conv;
     InUse := wrap32 (InUse conv + delta); History := History conv;
     LastActive := LastActive conv; LastPersist := LastPersist conv;
     Dirty := Dirty conv |}.

Definition setLastActive (t : Time) (conv : Conversation) : Conversation :=
  {| UserKey := UserKey conv; ConversationID := ConversationID conv;
     OAID := OAID conv; MiID := MiID conv; InternalID := InternalID conv;
     InUse := InUse conv; History := History conv;
     LastActive := t; LastPersist := LastPersist conv;
     Dirty := Dirty conv |}.

(** The two appends of [performChat] followed by [conv.Dirty = true]. *)
Definition appendTurn (query full : string) (conv : Conversation) : Conversation :=
  {| UserKey := UserKey conv; ConversationID := ConversationID conv;
     OAID := OAID conv; MiID := MiID conv; InternalID := InternalID conv;
     InUse := InUse conv;
     History := (History conv ++ [{| Source := "user"; Content := query |}])
                  ++ [{| Source := "assistant"; Content := full |}];
     LastActive := LastActive conv; LastPersist := LastPersist conv;
     Dirty := true |}.

(** The body of [persistConversation] under the conversation lock, after
    the copies were taken. *)
Definition markPersisted (now : Time) (conv : Conversation) : Conversation :=
  {| UserKey := UserKey conv; ConversationID := ConversationID conv;
     OAID := OAID conv; MiID := MiID conv; InternalID := InternalID conv;
     InUse := InUse conv; History := History conv;
     LastActive := LastActive conv; LastPersist := now;
     Dirty := false |}.

(** ** The upstream client: [Chat] *)

(** The response body behind [bufio.NewReader(resp.Body)]: the bytes the
    connection still delivers, and the error that ends it ([io.EOF] for
    a clean end, anything else for a broken or cancelled transfer). *)
Record Reader := { pending : string; finish : error }.

Definition newline : ascii := "010"%char.

(** The first line of [s], delimiter included, and what follows it. *)
Fixpoint cutLine (s : string) : option (string * string) :=
  match s with
  | EmptyString => None
  | String c s' =>
      if decide (c = newline) then Some (String c EmptyString, s')
      else match cutLine s' with
           | Some (line, rest) => Some (String c line, rest)
           | None => None
           end
  end.

(** [reader.ReadString('\n')]: the line read, the error, the reader after. *)
Definition ReadString (reader : Reader) : string * option error * Reader :=
  match cutLine (pending reader) with
  | Some (line, rest) => (line, None, {| pending := rest; finish := finish reader |})
  | None => (pending reader, Some (finish reader),
             {| pending := EmptyString; finish := finish reader |})
  end.

(** Go's [any], as far as the decoded JSON documents go. *)
#[warnings="-register-all"]
Inductive any :=
| anyNil
| anyBool (b : bool)
| anyFloat64 (bits : Z)
| anyString (s : string)
| anySlice (items : list any)
| anyMap (fields : list (string * any)).

Module MiuiPayload.
Record t := {
  Content : string;
  OAID : string;
  ChatType : string;
  SearchID : string;
  MiID : string;
  Model : string;
  Business : string;
  ConversationID : string;
  SupportVideo : bool;
  AppVersionCode : string;
  DeviceType : string;
  DeviceModel : string;
  Scene : string;
  RawLastQueryList : list Z;
  OnlineSearch : bool;
  AiShootingMode : gmap string any;
  IsUnLoginSystem : bool;
  QuerySource : string;
  IsDeepThinking : bool;
}.
End MiuiPayload.

(** What [c.httpClient.Do(req)] gives back: an error (transport failure,
    cancelled context) or a response with its status and body. *)
Inductive HttpResult :=
| DoError (e : error)
| Response (StatusCode : Z) (Status : string) (Body : Reader).

(** The upstream service, as seen through the HTTP client. *)
Definition Upstream := MiuiPayload.t → HttpResult.

Definition StatusOK : Z := 200.

Section Miui.
Context `{Strings, JSON}.

(** [compressHistory]: marshal, gzip, widen every byte to an [int]. *)
Definition compressHistory (history : list Message) : error + list Z :=
  match marshalHistory history with
  | inl err => inl err
  | inr data => gzipBytes data
  end.

(** The state [W] is whatever the fragment callback writes to (the
    client connection of the handlers). *)
Context {W : Type}.

(** The [for] loop of [Chat] together with the [return] after it: a
    [break] is the result [(full, nil)].  [fuel] bounds the number of
    iterations; [None] means the bound was reached. *)
Fixpoint readLoop (fuel : nat) (onChunk : option (string → W → W))
    (reader : Reader) (full : string) (w : W) : option (string * option error * W) :=
  match fuel with
  | O => None
  | S fuel' =>
      let '(line, err, reader') := ReadString reader in
      if bool_decide (err ≠ None) && negb (errIsEOF err) then Some (full, err, w) else
      let line := TrimSpace line in
      if HasPrefix line "data:" then
        let jsonStr := TrimSpace (TrimPrefix line "data:") in
        if bool_decide (jsonStr = "[DONE]") then Some (full, None, w) else
        match unmarshalChunk jsonStr with
        | inl uerr =>
            if isEOF uerr then Some (full, None, w)
            else if bool_decide (uerr = io_ErrUnexpectedEOF)
            then readLoop fuel' onChunk reader' full w
            else readLoop fuel' onChunk reader' full w
        | inr chunk =>
            let '(full, w) :=
              if bool_decide (Answer chunk ≠ "")
              then (full +:+ Answer chunk,
                    match onChunk with
                    | Some f => f (Answer chunk) w
                    | None => w
                    end)
              else (full, w) in
            if errIsEOF err then Some (full, None, w)
            else readLoop fuel' onChunk reader' full w
        end
      else
        if errIsEOF err then Some (full, None, w)
        else readLoop fuel' onChunk reader' full w
  end.

(** The [MiuiPayload] literal of [Chat], with [IsDeepThinking] set after it. *)
Definition newPayload (nowMillis : Z) (conv : Conversation) (query : string)
    (deepThinking onlineSearch : bool) (rawHistory : list Z) : MiuiPayload.t :=
  {| MiuiPayload.Content := query;
     MiuiPayload.OAID := OAID conv;
     MiuiPayload.ChatType := "SUMMARY";
     MiuiPayload.SearchID := newSearchID (OAID conv) nowMillis;
     MiuiPayload.MiID := MiID conv;
     MiuiPayload.Model := "DOUBAO";
     MiuiPayload.Business := "BROWSER";
     MiuiPayload.ConversationID := InternalID conv;
     MiuiPayload.SupportVideo := true;
     MiuiPayload.AppVersionCode := "201110100";
     MiuiPayload.DeviceType := "phone";
     MiuiPayload.DeviceModel := "M2012K11AC";
     MiuiPayload.Scene := "main";
     MiuiPayload.RawLastQueryList := rawHistory;
     MiuiPayload.OnlineSearch := onlineSearch;
     MiuiPayload.AiShootingMode := ∅;
     MiuiPayload.IsUnLoginSystem := false;
     MiuiPayload.QuerySource := "operationWord";
     MiuiPayload.IsDeepThinking := if deepThinking then true else false |}.

(** [Chat]: the payload, the request, the status check, the parsing loop.
    The context [ctx] acts through [upstream] only (a cancelled context
    fails the request or breaks the body).  The body has finitely many
    bytes, and the loop gets two iterations more than that. *)
Definition Chat (upstream : Upstream) (nowMillis : Z) (conv : Conversation)
    (query : string) (deepThinking onlineSearch : bool)
    (onChunk : option (string → W → W)) (w : W)
  : option (string * option error * W) :=
  match compressHistory (History conv) with
  | inl err => Some (EmptyString, Some err, w)
  | inr rawHistory =>
      let payload := newPayload nowMillis conv query deepThinking onlineSearch rawHistory in
      match upstream payload with
      | DoError err => Some (EmptyString, Some err, w)
      | Response StatusCode Status Body =>
          if bool_decide (StatusCode ≠ StatusOK)
          then Some (EmptyString, Some (errUpstreamHTTP ("miui upstream http " +:+ Status)), w)
          else readLoop (S (S (String.length (pending Body)))) onChunk Body EmptyString w
      end
  end.

End Miui.

(** ** store.go: the store *)

Module User.
Record t := { OAID : string; MiID : string }.
End User.

(** The two tables of the schema.  A row is keyed by its primary key. *)
Record UserRow := { oaid : string; mi_id : string; created_at : Z }.

Record ConversationRow := {
  internal_conv_id : string;
  history_json : string;
  updated_at : Z;
}.

Record DB := {
  users_table : gmap string UserRow;
  conversations_table : gmap (string * string) ConversationRow;
}.

(** The two closures the store hands to the write queue, by the SQL
    statement each executes. *)
Inductive Statement :=
| upsertConversation (userKey conversationID internalID historyJSON : string) (updatedAt : Z)
| insertUserOrIgnore (userKey oaid miID : string) (createdAt : Z).

(** [writeRequest]: [done] tells whether a completion channel is attached. *)
Record writeRequest := { fn : Statement; done : bool }.

(** [INSERT ... ON CONFLICT(user_key, conversation_id) DO UPDATE SET ...]
    replaces the three other columns of the row; [INSERT OR IGNORE]
    leaves an existing row alone. *)
Definition execStatement (st : Statement) (d : DB) : DB :=
  match st with
  | upsertConversation userKey conversationID internalID historyJSON updatedAt =>
      {| users_table := users_table d;
         conversations_table :=
           <[(userKey, conversationID) :=
               {| internal_conv_id := internalID; history_json := historyJSON;
                  updated_at := updatedAt |}]> (conversations_table d) |}
  | insertUserOrIgnore userKey oaid miID createdAt =>
      match users_table d !! userKey with
      | Some _ => d
      | None =>
          {| users_table :=
               <[userKey := {| oaid := oaid; mi_id := miID; created_at := createdAt |}]>
                 (users_table d);
             conversations_table := conversations_table d |}
      end
  end.

(** What the database engine does to one transaction: each of [Begin],
    the statement and [Commit] may fail. *)
Record TxEnv := {
  beginErr : option error;
  execErr : option error;
  commitErr : option error;
}.

Definition txOK : TxEnv := {| beginErr := None; execErr := None; commitErr := None |}.

(** One iteration of [writeLoop] on request [req]: the database after
    it, and the error value reported on [req.done] when there is one. *)
Definition writeLoopBody (env : TxEnv) (req : writeRequest) (d : DB) : DB * option error :=
  match beginErr env with
  | Some err => (d, Some err)
  | None =>
      match execErr env with
      | Some err => (d, Some err)
      | None =>
          match commitErr env with
          | Some err => (d, Some err)
          | None => (execStatement (fn req) d, None)
          end
      end
  end.

(** [writeLoop] over the requests of the channel, first in first out.
    The [n]-th request meets the [n]-th environment of [envs]; the
    result also lists the error of every request in turn. *)
Fixpoint writeLoop (envs : list TxEnv) (queue : list writeRequest) (d : DB)
  : DB * list (option error) :=
  match queue with
  | [] => (d, [])
  | req :: queue' =>
      let '(d1, err) := writeLoopBody (hd txOK envs) req d in
      let '(d2, errs) := writeLoop (tl envs) queue' d1 in
      (d2, err :: errs)
  end.

(** A [*Conversation]. *)
Definition ptr := nat.

Record Store := {
  db : DB;
  heap : gmap ptr Conversation;
  convs : gmap string ptr;
  users : gmap string User.t;
  writeCh : list writeRequest;
}.

Definition setDB (d : DB) (s : Store) : Store :=
  {| db := d; heap := heap s; convs := convs s; users := users s; writeCh := writeCh s |}.
Definition setHeap (h : gmap ptr Conversation) (s : Store) : Store :=
  {| db := db s; heap := h; convs := convs s; users := users s; writeCh := writeCh s |}.
Definition setConvs (m : gmap string ptr) (s : Store) : Store :=
  {| db := db s; heap := heap s; convs := m; users := users s; writeCh := writeCh s |}.
Definition setUsers (m : gmap string User.t) (s : Store) : Store :=
  {| db := db s; heap := heap s; convs := convs s; users := m; writeCh := writeCh s |}.
Definition setWriteCh (q : list writeRequest) (s : Store) : Store :=
  {| db := db s; heap := heap s; convs := convs s; users := users s; writeCh := q |}.

Section StoreOps.
Context `{JSON}.

(** [persistConversation].  A pointer outside the heap does not occur;
    the store is then returned as it is. *)
Definition persistConversation (conv : ptr) (now : Time) (s : Store) : Store :=
  match heap s !! conv with
  | None => s
  | Some c =>
      let historyCopy := History c in
      let internalID := InternalID c in
      let userKey := UserKey c in
      let conversationID := ConversationID c in
      let s := setHeap (<[conv := markPersisted now c]> (heap s)) s in
      match marshalHistory historyCopy with
      | inl _ => s
      | inr historyJSON =>
          setWriteCh
            (writeCh s ++
               [{| fn := upsertConversation userKey conversationID internalID
                           historyJSON (Unix now);
                   done := false |}]) s
      end
  end.

(** [QueryRow(...).Scan(...)] on table [users]: the engine may fail with
    [fault]; a missing row is [sql.ErrNoRows]. *)
Definition queryUser (fault : option error) (d : DB) (userKey : string) : error + UserRow :=
  match fault with
  | Some err => inl err
  | None =>
      match users_table d !! userKey with
      | Some row => inr row
      | None => inl sql_ErrNoRows
      end
  end.

(** The same on table [conversations]. *)
Definition queryConversation (fault : option error) (d : DB)
    (userKey conversationID : string) : error + ConversationRow :=
  match fault with
  | Some err => inl err
  | None =>
      match conversations_table d !! (userKey, conversationID) with
      | Some row => inr row
      | None => inl sql_ErrNoRows
      end
  end.

(** Everything [GetConversation] takes from outside the store: the
    faults of its three queries, the transactions of the worker while
    the caller waits on [done], the random draws and the clock. *)
Record Env := {
  userQueryFault : option error;
  userRequeryFault : option error;
  convQueryFault : option error;
  workerEnvs : list TxEnv;
  randOAID : list ascii;
  randMiID : Z;
  clock : Time;
  clockMillis : Z;
  clockLastActive : Time;
  clockLastPersist : Time;
}.

(** [getOrCreateUser].  Sending the request and receiving from [done]
    lets the worker run through the channel up to this request, which
    is the last one in it. *)
Definition getOrCreateUser (env : Env) (userKey : string) (s : Store)
  : (error + string * string) * Store :=
  match users s !! userKey with
  | Some user => (inr (User.OAID user, User.MiID user), s)
  | None =>
      match queryUser (userQueryFault env) (db s) userKey with
      | inr row =>
          (inr (oaid row, mi_id row),
           setUsers (<[userKey := {| User.OAID := oaid row; User.MiID := mi_id row |}]> (users s)) s)
      | inl err =>
          if negb (isErrNoRows err) then (inl err, s) else
          let oaid0 := newOAID (randOAID env) in
          let miID0 := newMiID (randMiID env) in
          let now := Unix (clock env) in
          let req := {| fn := insertUserOrIgnore userKey oaid0 miID0 now; done := true |} in
          let '(d, errs) := writeLoop (workerEnvs env) (writeCh s ++ [req]) (db s) in
          let s := setWriteCh [] (setDB d s) in
          match last errs with
          | Some (Some err) => (inl err, s)
          | _ =>
              match queryUser (userRequeryFault env) (db s) userKey with
              | inl err => (inl err, s)
              | inr row =>
                  (inr (oaid row, mi_id row),
                   setUsers (<[userKey := {| User.OAID := oaid row; User.MiID := mi_id row |}]>
                               (users s)) s)
              end
          end
      end
  end.

(** [GetConversation].  The new object is allocated at an address the
    heap does not use yet. *)
Definition GetConversation (env : Env) (userKey conversationID : string) (s : Store)
  : (error + ptr) * Store :=
  let conversationID :=
    if bool_decide (conversationID = "") then "default" else conversationID in
  let key := userKey +:+ "|" +:+ conversationID in
  match convs s !! key with
  | Some conv => (inr conv, s)
  | None =>
      match getOrCreateUser env userKey s with
      | (inl err, s) => (inl err, s)
      | (inr (oaid, miID), s) =>
          let loaded :=
            match queryConversation (convQueryFault env) (db s) userKey conversationID with
            | inr row => inr (internal_conv_id row, unmarshalHistory (history_json row))
            | inl err =>
                if isErrNoRows err then inr (newConversationID oaid (clockMillis env), [])
                else inl err
            end in
          match loaded with
          | inl err => (inl err, s)
          | inr (internalID, history) =>
              let c := {|
                UserKey := userKey;
                ConversationID := conversationID;
                OAID := oaid;
                MiID := miID;
                InternalID := internalID;
                InUse := 0;
                History := history;
                LastActive := clockLastActive env;
                LastPersist := clockLastPersist env;
                Dirty := false;
              |} in
              let conv := fresh (dom (heap s)) in
              (inr conv, setConvs (<[key := conv]> (convs s)) (setHeap (<[conv := c]> (heap s)) s))
          end
      end
  end.

(** [Touch]. *)
Definition Touch (now : Time) (conv : ptr) (s : Store) : Store :=
  setHeap (alter (setLastActive now) conv (heap s)) s.

(** *** The cleanup loop

    One tick of [cleanupLoop] is a sequence of steps, one per entry of
    the table during the pass under the read lock and one per marked key
    during the pass under the write lock.  The request handlers and the
    worker run meanwhile: before step [i] of the tick the rest of the
    program has changed the store by [others i].  The tick records what
    it observes and does in a trace. *)

Inductive Pass := ReadLocked | WriteLocked.

Inductive Event :=
| Examined (pass : Pass) (key : string) (conv : ptr) (inUse : Z)
| Persisted (conv : ptr) (history : list Message)
| Deleted (key : string) (conv : ptr).

(** The body of the first [for key, conv := range s.convs]. *)
Definition scanEntry (now : Time) (entry : string * ptr)
    (st : Store * list string * list Event) : Store * list string * list Event :=
  let '(s, evictKeys, trace) := st in
  let '(key, conv) := entry in
  match heap s !! conv with
  | None => st
  | Some c =>
      let trace := trace ++ [Examined ReadLocked key conv (InUse c)] in
      if (InUse c >? 0)%Z then (s, evictKeys, trace) else
      let '(s, trace) :=
        if Dirty c && (now - LastPersist c >=? persistAfter)%Z
        then (persistConversation conv now s, trace ++ [Persisted conv (History c)])
        else (s, trace) in
      let evictKeys :=
        if (now - LastActive c >=? evictAfter)%Z then evictKeys ++ [key] else evictKeys in
      (s, evictKeys, trace)
  end.

(** The body of the second [for _, key := range evictKeys]. *)
Definition evictEntry (now : Time) (key : string)
    (st : Store * list Event) : Store * list Event :=
  let '(s, trace) := st in
  match convs s !! key with
  | None => st
  | Some conv =>
      match heap s !! conv with
      | None => st
      | Some c =>
          let trace := trace ++ [Examined WriteLocked key conv (InUse c)] in
          if (InUse c >? 0)%Z then (s, trace) else
          let s := persistConversation conv now s in
          let trace := trace ++ [Persisted conv (History c)] in
          (setConvs (delete key (convs s)) s, trace ++ [Deleted key conv])
      end
  end.

Section Tick.
Variable others : nat → Store → Store.

(** The pass under [s.mu.RLock()], from step [i] on. *)
Fixpoint scanLoop (now : Time) (i : nat) (entries : list (string * ptr))
    (st : Store * list string * list Event) : Store * list string * list Event :=
  match entries with
  | [] => st
  | entry :: entries' =>
      let '(s, evictKeys, trace) := st in
      scanLoop now (S i) entries' (scanEntry now entry (others i s, evictKeys, trace))
  end.

(** The pass under [s.mu.Lock()], from step [i] on. *)
Fixpoint evictLoop (now : Time) (i : nat) (evictKeys : list string)
    (st : Store * list Event) : Store * list Event :=
  match evictKeys with
  | [] => st
  | key :: evictKeys' =>
      let '(s, trace) := st in
      evictLoop now (S i) evictKeys' (evictEntry now key (others i s, trace))
  end.

(** One tick, visiting the table in the order [entries]. *)
Definition cleanupTickOver (now : Time) (entries : list (string * ptr)) (s : Store)
  : Store * list Event :=
  let '(s, evictKeys, trace) := scanLoop now 0 entries (s, [], []) in
  match evictKeys with
  | [] => (s, trace)
  | _ => evictLoop now (length entries) evictKeys (s, trace)
  end.

(** One tick of [cleanupLoop] at time [now]. *)
Definition cleanupTick (now : Time) (s : Store) : Store * list Event :=
  cleanupTickOver now (map_to_list (convs s)) s.

End Tick.

End StoreOps.

(** ** server.go *)

Record RequestOptions := {
  Stream : bool;
  DeepThinking : bool;
  OnlineSearch : bool;
  Model : string;
}.

(** The part of [*http.Request] the gateway reads: the header table,
    keyed by canonical header names.  The names looked up below are in
    canonical form already. *)
Record Request := { Header : gmap string (list string) }.

(** [r.Header.Get(key)]. *)
Definition Header_Get (r : Request) (key : string) : string :=
  match Header r !! key with
  | Some (v :: _) => v
  | _ => EmptyString
  end.

(** [body[key]]: a missing key reads as [nil]. *)
Definition index (body : gmap string any) (key : string) : any :=
  match body !! key with Some v => v | None => anyNil end.

(** [getBoolOptional]. *)
Fixpoint getBoolOptional (body : gmap string any) (keys : list string) : bool * bool :=
  match keys with
  | [] => (false, false)
  | key :: keys' =>
      match body !! key with
      | Some (anyBool b) => (b, true)
      | _ => getBoolOptional body keys'
      end
  end.

(** [getBool]. *)
Definition getBool (body : gmap string any) (keys : list string) : bool :=
  fst (getBoolOptional body keys).

(** [normalizeModel]. *)
Definition normalizeModel (model : any) : string :=
  let modelStr := match model with anyString s => s | _ => EmptyString end in
  if bool_decide (modelStr = "") then "DOUBAO" else "DOUBAO".

Section Server.
Context `{Strings, JSON}.

(** [headerBool]. *)
Definition headerBool (r : Request) (key : string) : bool :=
  let val := TrimSpace (Header_Get r key) in
  if bool_decide (val = "") then false else
  let val := ToLower val in
  bool_decide (val = "1") || bool_decide (val = "true")
  || bool_decide (val = "yes") || bool_decide (val = "on").

(** [parseModelFlags]. *)
Definition parseModelFlags (model : any) : bool * bool * bool :=
  let modelStr := match model with anyString s => s | _ => EmptyString end in
  if bool_decide (modelStr = "") then (false, false, false) else
  let modelStr := ToLower modelStr in
  let deep := Contains modelStr "-thinking" in
  let search := Contains modelStr "-search" in
  (deep, search, deep || search).

(** [parseRequestOptions]. *)
Definition parseRequestOptions (body : gmap string any) (r : Request) : RequestOptions :=
  let '(deepThinking, ok) :=
    getBoolOptional body ["deep_thinking"; "deepThinking"; "isDeepThinking"] in
  let deepThinking := if negb ok then true else deepThinking in
  let '(onlineSearch, ok) := getBoolOptional body ["online_search"; "onlineSearch"] in
  let onlineSearch := if negb ok then true else onlineSearch in
  let deepThinking := if headerBool r "X-Deep-Thinking" then true else deepThinking in
  let onlineSearch := if headerBool r "X-Online-Search" then true else onlineSearch in
  let onlineSearch := if headerBool r "X-Disable-Search" then false else onlineSearch in
  let '(modelDeep, modelSearch, modelHasFlag) := parseModelFlags (index body "model") in
  let '(deepThinking, onlineSearch) :=
    if modelHasFlag then
      if modelDeep && modelSearch then (true, true)
      else if modelDeep then (true, false)
      else if modelSearch then (false, true)
      else (deepThinking, onlineSearch)
    else (deepThinking, onlineSearch) in
  {| Stream := getBool body ["stream"];
     Model := normalizeModel (index body "model");
     DeepThinking := deepThinking;
     OnlineSearch := onlineSearch |}.

(** [extractUserKey]; [entropy] is what the system source delivers to
    [newUserKey].  [None] stands for the run-time panic of a slice
    expression out of range. *)
Definition extractUserKey (entropy : list ascii) (r : Request) : option string :=
  let auth := TrimSpace (Header_Get r "Authorization") in
  if bool_decide (auth = "") then Some (newUserKey entropy) else
  let lower := ToLower auth in
  if HasPrefix lower "bearer " then
    if (String.length auth <? 7)%nat then None
    else Some (TrimSpace (sliceFrom 7 auth))
  else Some auth.

(** [performChat] on the conversation object [conv] points to: the
    object when the call returns, next to the results.  [t1] and [t2]
    are the two readings of [time.Now()].  The lock is held from the
    first assignment to the last, so nothing else writes the fields
    meanwhile. *)
Definition performChat {W : Type} (upstream : Upstream) (nowMillis : Z) (t1 t2 : Time)
    (conv : Conversation) (query : string) (deepThinking onlineSearch : bool)
    (onChunk : option (string → W → W)) (w : W)
  : option (string * option error * Conversation * W) :=
  let conv := atomicAddInt32 1 conv in
  let conv := setLastActive t1 conv in
  match Chat upstream nowMillis conv query deepThinking onlineSearch onChunk w with
  | None => None
  | Some (full, err, w) =>
      let conv :=
        if bool_decide (err = None) && bool_decide (TrimSpace full ≠ "")
        then appendTurn query full conv
        else conv in
      let conv := setLastActive t2 conv in
      let conv := atomicAddInt32 (-1) conv in
      Some (full, err, conv, w)
  end.

End Server.

(** ** The interfaces on 7-bit text

    On strings of bytes below 128 [strings.TrimSpace] removes the six
    characters of [asciiSpace] from both ends and [strings.ToLower] maps
    ['A'..'Z'] to ['a'..'z'].  This instance serves to run the gateway on
    such inputs. *)

#[global, refine]
Instance Strings7 : Strings := {|
  TrimSpace := trimSpace7;
  ToLower := lowerASCII;
|}.
Proof.
  - reflexivity.
  - reflexivity.
  - intros s t _. induction s as [|c s IH]; simpl; [reflexivity | by rewrite IH].
  - intros s t _. induction s as [|c s IH]; simpl; [reflexivity | by rewrite IH].
Defined.

(** A JSON codec for the flat documents of the examples: objects whose
    fields are strings free of quotes and backslashes, written without
    blanks.  Compression is the identity. *)

Definition quote : ascii := "034"%char.
Definition backslash : ascii := "092"%char.

(** The string literal [name] between quotes. *)
Definition quoted (name : string) : string :=
  String quote (name +:+ String quote EmptyString).

(** Drops [prefix] from the front of [s], if it is there. *)
Definition expect (prefix s : string) : option string :=
  if HasPrefix s prefix then Some (sliceFrom (String.length prefix) s) else None.

(** Reads a string body up to its closing quote. *)
Fixpoint untilQuote (s : string) : option (string * string) :=
  match s with
  | EmptyString => None
  | String c s' =>
      if bool_decide (c = quote) then Some (EmptyString, s')
      else if bool_decide (c = backslash) then None
      else match untilQuote s' with
           | Some (body, rest) => Some (String c body, rest)
           | None => None
           end
  end.

Definition flatUnmarshalChunk (s : string) : error + miuiStreamChunk :=
  match expect ("{" +:+ quoted "answer" +:+ ":" +:+ String quote EmptyString) s with
  | Some s1 =>
      match untilQuote s1 with
      | Some (body, "}"%string) => inr {| Answer := body; IntentionInfo := None |}
      | _ => inl (errOther "invalid character")
      end
  | None =>
      if bool_decide (s = "{}") then inr {| Answer := EmptyString; IntentionInfo := None |}
      else inl (errOther "invalid character")
  end.

Definition flatMarshalMessage (m : Message) : string :=
  "{" +:+ quoted "source" +:+ ":" +:+ quoted (Source m) +:+ ","
      +:+ quoted "content" +:+ ":" +:+ quoted (Content m) +:+ "}".

Fixpoint flatMarshalMessages (h : list Message) : string :=
  match h with
  | [] => EmptyString
  | [m] => flatMarshalMessage m
  | m :: h' => flatMarshalMessage m +:+ "," +:+ flatMarshalMessages h'
  end.

(** A nil slice is marshalled as [null]. *)
Definition flatMarshalHistory (h : list Message) : error + string :=
  match h with
  | [] => inr "null"%string
  | _ => inr ("[" +:+ flatMarshalMessages h +:+ "]")
  end.

Definition flatUnmarshalMessage (s : string) : option (Message * string) :=
  s1 ← expect ("{" +:+ quoted "source" +:+ ":" +:+ String quote EmptyString) s;
  '(src, s2) ← untilQuote s1;
  s3 ← expect ("," +:+ quoted "content" +:+ ":" +:+ String quote EmptyString) s2;
  '(content, s4) ← untilQuote s3;
  s5 ← expect "}" s4;
  Some ({| Source := src; Content := content |}, s5).

Fixpoint flatUnmarshalMessages (fuel : nat) (s : string) : option (list Message) :=
  match fuel with
  | O => None
  | S fuel' =>
      '(m, rest) ← flatUnmarshalMessage s;
      if bool_decide (rest = "]") then Some [m]
      else rest' ← expect "," rest;
           h ← flatUnmarshalMessages fuel' rest';
           Some (m :: h)
  end.

(** Decoding into an empty slice; errors leave it empty. *)
Definition flatUnmarshalHistory (s : string) : list Message :=
  match expect "[" s with
  | Some s1 =>
      if bool_decide (s1 = "]") then []
      else default [] (flatUnmarshalMessages (String.length s) s1)
  | None => []
  end.

Definition bytesToInts (s : string) : list Z :=
  map (λ c, Z.of_N (N_of_ascii c)) (list_ascii_of_string s).

#[global, refine]
Instance JSONFlat : JSON := {|
  unmarshalChunk := flatUnmarshalChunk;
  marshalHistory := flatMarshalHistory;
  unmarshalHistory := flatUnmarshalHistory;
  gzipBytes := λ data, inr (bytesToInts data);
|}.
Proof.
  intros s e. unfold flatUnmarshalChunk.
  repeat case_match; intros; simplify_eq; reflexivity.
Defined.

(** ** The event stream as a sequence of records

    The description of the parser in terms of records, against which
    the loop of [Chat] is compared: every line is a fragment, the
    [[DONE]] sentinel, a malformed record or a line without the [data:]
    prefix. *)

Inductive RecordKind :=
| ValidFragment (answer : string)
| DoneSentinel
| Malformed
| NonDataLine.

#[global]
Instance RecordKind_eq_dec : EqDecision RecordKind.
Proof. solve_decision. Defined.

(** The lines of a byte stream, each with its delimiter; the last one
    lacks it when the stream does not end in a newline. *)
Fixpoint lines (s : string) : list string :=
  match s with
  | EmptyString => []
  | String c s' =>
      if decide (c = newline) then String c EmptyString :: lines s'
      else match lines s' with
           | [] => [String c EmptyString]
           | l :: ls => String c l :: ls
           end
  end.

(** Whether a line ends in the delimiter. *)
Fixpoint terminated (l : string) : bool :=
  match l with
  | EmptyString => false
  | String c EmptyString => bool_decide (c = newline)
  | String _ l' => terminated l'
  end.

(** A list of lines as [lines] produces them: each is a single line, and
    all but the last end in the delimiter. *)
Inductive lineList : list string → Prop :=
| lineList_nil : lineList []
| lineList_last l : lines l = [l] → lineList [l]
| lineList_cons l ls :
    lines l = [l] → terminated l = true → lineList ls → lineList (l :: ls).

(** The lines the connection hands over before it ends: all of them when
    it ends cleanly, the terminated ones when it breaks. *)
Definition delivered (reader : Reader) : list string :=
  if isEOF (finish reader) then lines (pending reader)
  else filter (λ l, terminated l = true) (lines (pending reader)).

(** [strings.Join(ls, "")]. *)
Definition joinStrings (ls : list string) : string := foldr String.append EmptyString ls.

(** The non-empty fragments of a sequence of records, up to the first
    sentinel. *)
Fixpoint answers (records : list RecordKind) : list string :=
  match records with
  | [] => []
  | ValidFragment a :: records' =>
      if bool_decide (a = "") then answers records' else a :: answers records'
  | DoneSentinel :: _ => []
  | _ :: records' => answers records'
  end.

Definition isDone (r : RecordKind) : bool :=
  match r with DoneSentinel => true | _ => false end.

Definition isMalformed (r : RecordKind) : bool :=
  match r with Malformed => true | _ => false end.

(** Calling the fragment callback, when there is one. *)
Definition callback {W : Type} (onChunk : option (string → W → W)) (w : W) (a : string) : W :=
  match onChunk with Some f => f a w | None => w end.

(** A callback that records its arguments. *)
Definition recorder : option (string → list string → list string) :=
  Some (λ text seen, seen ++ [text]).

Section Records.
Context `{Strings, JSON}.

(** The kind of one line. *)
Definition classify (line : string) : RecordKind :=
  let line := TrimSpace line in
  if HasPrefix line "data:" then
    let payload := TrimSpace (TrimPrefix line "data:") in
    if bool_decide (payload = "[DONE]") then DoneSentinel
    else match unmarshalChunk payload with
         | inl _ => Malformed
         | inr chunk => ValidFragment (Answer chunk)
         end
  else NonDataLine.

(** The records of a response body. *)
Definition records (reader : Reader) : list RecordKind := classify <$> delivered reader.

(** The fragments of a response body. *)
Definition fragments (reader : Reader) : list string := answers (records reader).

(** The error a completed exchange ends with: none after a sentinel or a
    clean end, the error of the connection otherwise. *)
Definition outcome (reader : Reader) : option error :=
  if existsb isDone (records reader) || isEOF (finish reader) then None
  else Some (finish reader).

(** The stream without its malformed lines. *)
Definition removeMalformed (s : string) : string :=
  joinStrings (filter (λ l, isMalformed (classify l) = false) (lines s)).

End Records.

(** ** Notions used to state the properties of the store *)

(** The row of table [conversations] a request writes, if any. *)
Definition rowOf (req : writeRequest) : option (string * string) :=
  match fn req with
  | upsertConversation userKey conversationID _ _ _ => Some (userKey, conversationID)
  | insertUserOrIgnore _ _ _ _ => None
  end.

(** A transaction in which [Begin], the statement and [Commit] succeed. *)
Definition commits (env : TxEnv) : Prop :=
  beginErr env = None ∧ execErr env = None ∧ commitErr env = None.

(** No conversation has a negative [InUse] counter. *)
Definition countersNonNegative (s : Store) : Prop :=
  ∀ conv c, heap s !! conv = Some c → (0 ≤ InUse c)%Z.

Definition isExamined (ev : Event) : Prop :=
  match ev with Examined _ _ _ _ => True | _ => False end.

(** In a trace, an examination that finds the counter positive is
    followed, if by anything, by the examination of the next entry. *)
Definition inUseRespected (tr : list Event) : Prop :=
  ∀ i pass key conv n,
    tr !! i = Some (Examined pass key conv n) → (0 < n)%Z →
    ∀ ev, tr !! S i = Some ev → isExamined ev.

(** In a trace, [key] was examined under the read lock with a counter
    at zero. *)
Definition scannedIdle (tr : list Event) (key : string) (i0 : nat) : Prop :=
  ∃ conv0, tr !! i0 = Some (Examined ReadLocked key conv0 0).

(** In a trace, a deletion comes right after the persist of the same
    conversation, which comes right after its examination under the
    write lock with a counter at zero, and the key was examined under
    the read lock with a counter at zero before. *)
Definition deletionsJustified (tr : list Event) : Prop :=
  ∀ j key conv,
    tr !! j = Some (Deleted key conv) →
    ∃ i history i0,
      j = S (S i)
      ∧ tr !! i = Some (Examined WriteLocked key conv 0)
      ∧ tr !! S i = Some (Persisted conv history)
      ∧ (i0 < i)%nat ∧ scannedIdle tr key i0.

(** What holds of the store, the marked keys and the trace throughout a
    tick. *)
Definition tickInvariant (s : Store) (keys : list string) (tr : list Event) : Prop :=
  countersNonNegative s ∧ inUseRespected tr ∧ deletionsJustified tr
  ∧ ∀ key, key ∈ keys → ∃ i0, scannedIdle tr key i0.

(** ** Example data *)

Definition emptyDB : DB := {| users_table := ∅; conversations_table := ∅ |}.

Definition emptyStore : Store :=
  {| db := emptyDB; heap := ∅; convs := ∅; users := ∅; writeCh := [] |}.

(** A [data:] line carrying the fragment [a]. *)
Definition dataLine (a : string) : string :=
  "data:{" +:+ quoted "answer" +:+ ":" +:+ quoted a +:+ "}" +:+ String newline EmptyString.

Definition doneLine : string := "data:[DONE]" +:+ String newline EmptyString.

Definition helloBody : Reader :=
  {| pending := dataLine "Hel" +:+ dataLine "lo" +:+ dataLine " world";
     finish := io_EOF |}.

Definition aliceConv : Conversation :=
  {| UserKey := "alice"; ConversationID := "default"; OAID := "0011223344556677";
     MiID := "1234567890"; InternalID := "00112233445566771700000000000";
     InUse := 0; History := []; LastActive := 0; LastPersist := 0; Dirty := false |}.

(** A stream with a malformed record between two fragments. *)
Definition brokenStream : string :=
  dataLine "Hel" +:+ "data:{oops" +:+ String newline EmptyString +:+ dataLine "lo".

(** A body that breaks after one fragment and half a line. *)
Definition cutBody : Reader :=
  {| pending := dataLine "Hel" +:+ "data:{"; finish := errOther "context canceled" |}.

(** A body whose only fragment is blank. *)
Definition blankBody : Reader :=
  {| pending := dataLine "  "; finish := io_EOF |}.

(** A request body that turns deep thinking off and search on, under a
    model name with the [-thinking] suffix, and a request that asks for
    search in its headers. *)
Definition thinkingBody : gmap string any :=
  <["model" := anyString "gpt-4o-thinking"]>
    (<["deep_thinking" := anyBool false]> {["online_search" := anyBool true]}).

Definition searchRequest : Request :=
  {| Header := {["X-Online-Search" := ["true"]]} |}.

Definition plainRequest : Request := {| Header := ∅ |}.

Definition blankAuthRequest : Request := {| Header := {["Authorization" := ["  "]]} |}.

Definition bareBearerRequest : Request := {| Header := {["Authorization" := ["Bearer "]]} |}.

Definition bearerRequest : Request :=
  {| Header := {["Authorization" := ["BEARER  sk-demo "]]} |}.

(** Twelve bytes from the random source. *)
Definition someEntropy : list ascii :=
  ["001"; "035"; "069"; "103"; "137"; "171"; "205"; "239"; "016"; "050"; "084"; "118"]%char.

(** A store that caches one conversation with a turn not yet persisted,
    while a request that persists an older state of it is still queued. *)
Definition bobConv : Conversation :=
  {| UserKey := "bob"; ConversationID := "s1"; OAID := "89abcdef01234567";
     MiID := "1000000001"; InternalID := "89abcdef012345671690000000000";
     InUse := 0;
     History := [{| Source := "user"; Content := "hi" |};
                 {| Source := "assistant"; Content := "hello" |}];
     LastActive := 100 * second; LastPersist := 100 * second; Dirty := true |}.

Definition staleRequest : writeRequest :=
  {| fn := upsertConversation "bob" "s1" "89abcdef012345671690000000000" "null" 99;
     done := false |}.

Definition bobStore : Store :=
  {| db := emptyDB; heap := {[7%nat := bobConv]}; convs := {["bob|s1" := 7%nat]};
     users := ∅; writeCh := [staleRequest] |}.

Definition carolRequest : writeRequest :=
  {| fn := insertUserOrIgnore "carol" "0000000000000000" "1000000002" 200; done := true |}.

(** A transaction whose [Commit] fails. *)
Definition txBusy : TxEnv :=
  {| beginErr := None; execErr := None; commitErr := Some (errOther "database is locked") |}.

(** A cache with an idle, dirty conversation and one that a request is
    using, both untouched for more than a minute at time [tickTime]. *)
Definition busyConv : Conversation :=
  {| UserKey := "alice"; ConversationID := "default"; OAID := "0011223344556677";
     MiID := "1234567890"; InternalID := "00112233445566771700000000000";
     InUse := 1; History := []; LastActive := 0; LastPersist := 0; Dirty := true |}.

Definition twoStore : Store :=
  {| db := emptyDB;
     heap := <[7%nat := bobConv]> {[8%nat := busyConv]};
     convs := <["bob|s1" := 7%nat]> {["alice|default" := 8%nat]};
     users := ∅; writeCh := [] |}.

Definition twoEntries : list (string * ptr) := [("bob|s1", 7%nat); ("alice|default", 8%nat)].

Definition tickTime : Z := 200 * second.

(** The rest of the program does nothing during the tick. *)
Definition quiet : nat → Store → Store := λ _ s, s.

(** A request starts using conversation 7 between the two passes. *)
Definition startsBetweenPasses : nat → Store → Store :=
  λ i s, if bool_decide (i = 2%nat)
         then setHeap (alter (atomicAddInt32 1) 7%nat (heap s)) s else s.

(** An environment without faults. *)
Definition calmEnv : Env :=
  {| userQueryFault := None; userRequeryFault := None; convQueryFault := None;
     workerEnvs := []; randOAID := someEntropy; randMiID := 1234567890;
     clock := 1700000000000000000; clockMillis := 1700000000000;
     clockLastActive := 1700000000000000001; clockLastPersist := 1700000000000000002 |}.


(** An upstream that answers every request with status 200 and [body]. *)
Definition respond (body : Reader) : Upstream := λ _, Response StatusOK "200 OK" body.

(** * Further notions

    The notions below serve to state what the rest of the code does:
    the worker as a whole, the agreement between the caches and the
    tables, the message extraction of the handlers and the handlers
    themselves. *)

(** ** The write queue as a whole *)

(** The error a transaction ends with, if any: the one of [Begin], else
    the one of the statement, else the one of [Commit]. *)
Definition txError (env : TxEnv) : option error :=
  match beginErr env with
  | Some err => Some err
  | None =>
      match execErr env with
      | Some err => Some err
      | None => commitErr env
      end
  end.

(** The requests of a queue whose transactions commit, in order. *)
Fixpoint committed (envs : list TxEnv) (queue : list writeRequest) : list writeRequest :=
  match queue with
  | [] => []
  | req :: queue' =>
      match txError (hd txOK envs) with
      | None => req :: committed (tl envs) queue'
      | Some _ => committed (tl envs) queue'
      end
  end.

(** The errors a queue reports, one per request. *)
Fixpoint reported (envs : list TxEnv) (queue : list writeRequest) : list (option error) :=
  match queue with
  | [] => []
  | _ :: queue' => txError (hd txOK envs) :: reported (tl envs) queue'
  end.

(** The worker going through the whole channel of a store. *)
Definition runWorker (envs : list TxEnv) (s : Store) : Store :=
  setWriteCh [] (setDB (fst (writeLoop envs (writeCh s) (db s))) s).

(** ** Agreement between the caches and what they stand for *)

(** Every cached user is the row of the table. *)
Definition usersAgree (s : Store) : Prop :=
  ∀ userKey user,
    users s !! userKey = Some user →
    ∃ row, users_table (db s) !! userKey = Some row
           ∧ oaid row = User.OAID user ∧ mi_id row = User.MiID user.

(** The key under which [GetConversation] files a conversation. *)
Definition cacheKey (c : Conversation) : string :=
  UserKey c +:+ "|" +:+ ConversationID c.

(** Every entry of the table points to an object of the heap that
    carries the user key and the session id of its key. *)
Definition tableConsistent (s : Store) : Prop :=
  ∀ key conv,
    convs s !! key = Some conv →
    ∃ c, heap s !! conv = Some c ∧ key = cacheKey c.

(** Whether the cleanup loop evicts the object [conv] points to at time
    [now]: nobody uses it and it has been idle for [evictAfter]. *)
Definition evictable (s : Store) (now : Time) (conv : ptr) : bool :=
  match heap s !! conv with
  | Some c => negb (InUse c >? 0)%Z && (now - LastActive c >=? evictAfter)%Z
  | None => false
  end.

(** The row the first request of [reqs] that inserts user [userKey]
    would write. *)
Fixpoint firstInsert (userKey : string) (reqs : list writeRequest) : option UserRow :=
  match reqs with
  | [] => None
  | req :: reqs' =>
      match fn req with
      | insertUserOrIgnore userKey' oaid0 miID0 createdAt =>
          if bool_decide (userKey' = userKey)
          then Some {| oaid := oaid0; mi_id := miID0; created_at := createdAt |}
          else firstInsert userKey reqs'
      | upsertConversation _ _ _ _ _ => firstInsert userKey reqs'
      end
  end.

(** The session id [GetConversation] works with. *)
Definition sessionID (conversationID : string) : string :=
  if bool_decide (conversationID = "") then "default" else conversationID.

(** No conversation of the heap has a user key with a bar in it. *)
Definition userKeysBarFree (s : Store) : Prop :=
  ∀ conv c, heap s !! conv = Some c → Contains (UserKey c) "|" = false.

(** A conversation was evicted while a turn of it was not yet persisted
    and the worker was behind; afterwards the worker catches up. *)
Definition evictedStore `{JSON} : Store :=
  runWorker [txBusy; txOK] (fst (evictEntry tickTime "bob|s1" (bobStore, []))).

(** What a conversation object holds apart from the two fields
    [persistConversation] writes. *)
Definition contentOf (c : Conversation)
  : string * string * string * string * string * Z * list Message * Z :=
  (UserKey c, ConversationID c, OAID c, MiID c, InternalID c, InUse c, History c,
   LastActive c).

(** Two stores hold the same objects up to [Dirty] and [LastPersist]. *)
Definition sameContent (s s' : Store) : Prop :=
  ∀ conv, contentOf <$> (heap s' !! conv) = contentOf <$> (heap s !! conv).

(** Whether the second pass removes the object [conv] points to: nobody
    uses it. *)
Definition unused (s : Store) (conv : ptr) : bool :=
  match heap s !! conv with
  | Some c => negb (InUse c >? 0)%Z
  | None => false
  end.

(** The request [persistConversation] queues for conversation [c] at
    time [now] when its history is written as [historyJSON]. *)
Definition persistRequest (c : Conversation) (now : Time) (historyJSON : string)
  : writeRequest :=
  {| fn := upsertConversation (UserKey c) (ConversationID c) (InternalID c)
             historyJSON (Unix now);
     done := false |}.

(** In store [s] the object [conv] is clean and stamped [now], and the
    request that persists the state [c] is in the channel. *)
Definition persistedAt `{JSON} (s : Store) (conv : ptr) (now : Time) (c : Conversation)
  : Prop :=
  (∃ c', heap s !! conv = Some c' ∧ Dirty c' = false ∧ LastPersist c' = now)
  ∧ ∀ historyJSON, marshalHistory (History c) = inr historyJSON →
      persistRequest c now historyJSON ∈ writeCh s.

(** [conv] is free and owes a write: the first pass of a tick at [now]
    persists it. *)
Definition due (s : Store) (now : Time) (conv : ptr) : bool :=
  match heap s !! conv with
  | Some c => negb (InUse c >? 0)%Z && (Dirty c && (now - LastPersist c >=? persistAfter)%Z)
  | None => false
  end.

(** The store a tick at [now] leaves when nothing else runs meanwhile. *)
Definition tickStore `{JSON} (now : Time) (s : Store) : Store :=
  fst (cleanupTick quiet now s).

(** What a tick may have done to the store it started from. *)
Definition tickedFrom (s s' : Store) : Prop :=
  sameContent s s' ∧ db s' = db s ∧ users s' = users s
  ∧ ∃ more, writeCh s' = writeCh s ++ more.

(** ** The stores a tick goes through

    The state of the tick from [s] after the first [n] steps of its
    first pass, the store it examines entry [n] in (what the rest of the
    program made of that state meanwhile), the keys the first pass
    marks, and the same for the steps of the second pass. *)
Definition scanState `{JSON} (others : nat → Store → Store) (now : Time)
    (entries : list (string * ptr)) (s : Store) (n : nat)
  : Store * list string * list Event :=
  scanLoop others now 0 (take n entries) (s, [], []).

Definition scanView `{JSON} (others : nat → Store → Store) (now : Time)
    (entries : list (string * ptr)) (s : Store) (n : nat) : Store :=
  others n (scanState others now entries s n).1.1.

Definition marked `{JSON} (others : nat → Store → Store) (now : Time)
    (entries : list (string * ptr)) (s : Store) : list string :=
  (scanState others now entries s (length entries)).1.2.

Definition evictState `{JSON} (others : nat → Store → Store) (now : Time)
    (entries : list (string * ptr)) (s : Store) (m : nat) : Store * list Event :=
  let '(s1, keys, trace) := scanState others now entries s (length entries) in
  evictLoop others now (length entries) (take m keys) (s1, trace).

Definition evictView `{JSON} (others : nat → Store → Store) (now : Time)
    (entries : list (string * ptr)) (s : Store) (m : nat) : Store :=
  others (length entries + m) (evictState others now entries s m).1.

(** The rest of the program replaces and removes no entry of the table. *)
Definition tableKept (others : nat → Store → Store) : Prop :=
  ∀ i st key conv, convs st !! key = Some conv → convs (others i st) !! key = Some conv.

(** * Properties *)

(** ** Lines and reads *)

Lemma terminated_cons (c : ascii) (l : string) :
  l ≠ EmptyString → terminated (String c l) = terminated l.
Proof. destruct l; [done | reflexivity]. Qed.

Lemma terminated_nonempty (l : string) : terminated l = true → l ≠ EmptyString.
Proof. by destruct l. Qed.

Lemma cutLine_Some (s line rest : string) :
  cutLine s = Some (line, rest) →
  lines s = line :: lines rest ∧ terminated line = true
  ∧ (String.length rest < String.length s)%nat.
Proof.
  revert line rest. induction s as [|c s IH]; intros line rest; simpl; [done|].
  destruct (decide (c = newline)) as [->|Hc].
  - intros [= <- <-]. split_and!; [done | done | lia].
  - destruct (cutLine s) as [[line' rest']|] eqn:Hcut; [|done].
    intros [= <- <-]. destruct (IH _ _ eq_refl) as (Hl & Ht & Hlen).
    rewrite Hl. split_and!; [done | | lia].
    rewrite terminated_cons; [done | by apply terminated_nonempty].
Qed.

Lemma cutLine_None (s : string) :
  cutLine s = None →
  lines s = (if bool_decide (s = "") then [] else [s])
  ∧ terminated s = false.
Proof.
  induction s as [|c s IH]; simpl; [done|].
  destruct (decide (c = newline)) as [->|Hc]; [done|].
  destruct (cutLine s) as [[line' rest']|] eqn:Hcut; [done|].
  intros _. destruct (IH eq_refl) as [Hl Ht]. rewrite Hl.
  destruct s as [|c' s'].
  - simpl. split; [done|]. by apply bool_decide_eq_false_2.
  - by rewrite bool_decide_eq_false_2.
Qed.

Lemma lines_terminated_init (s : string) (l : string) (ls : list string) :
  lines s = l :: ls → ls ≠ [] → terminated l = true.
Proof.
  revert l ls. induction s as [|c s IH]; intros l ls; simpl; [done|].
  destruct (decide (c = newline)) as [->|Hc].
  - by intros [= <- <-].
  - destruct (lines s) as [|l' ls'] eqn:Hs; [by intros [= <- <-]|].
    intros [= <- <-] Hne. rewrite terminated_cons; [by eapply IH|].
    destruct s; [done|]. simpl in Hs. by repeat case_match; simplify_eq.
Qed.

Lemma append_cons (c : ascii) (s t : string) : String c s +:+ t = String c (s +:+ t).
Proof. reflexivity. Qed.

Lemma append_empty_r (s : string) : s +:+ "" = s.
Proof. induction s as [|c s IH]; [done|]. rewrite !append_cons. simpl. by f_equal. Qed.

Lemma append_assoc (s t u : string) : (s +:+ t) +:+ u = s +:+ (t +:+ u).
Proof. induction s as [|c s IH]; [done|]. rewrite !append_cons. simpl. by f_equal. Qed.

Lemma append_length (s t : string) :
  String.length (s +:+ t) = (String.length s + String.length t)%nat.
Proof. induction s as [|c s IH]; [done|]. rewrite !append_cons. simpl. by f_equal. Qed.

(** ** The parsing loop, record by record *)

Section LoopSpec.
Context `{Strings, JSON} {W : Type}.
Implicit Types (onChunk : option (string → W → W)) (reader : Reader) (w : W).

(** One iteration of the loop, by the kind of the line read. *)
Lemma readLoop_unfold fuel onChunk reader full w :
  readLoop (S fuel) onChunk reader full w =
  let '(line, err, reader') := ReadString reader in
  if bool_decide (err ≠ None) && negb (errIsEOF err) then Some (full, err, w) else
  match classify line with
  | DoneSentinel => Some (full, None, w)
  | Malformed => readLoop fuel onChunk reader' full w
  | ValidFragment a =>
      let '(full, w) :=
        if bool_decide (a = "") then (full, w) else (full +:+ a, callback onChunk w a) in
      if errIsEOF err then Some (full, None, w)
      else readLoop fuel onChunk reader' full w
  | NonDataLine =>
      if errIsEOF err then Some (full, None, w)
      else readLoop fuel onChunk reader' full w
  end.
Proof.
  simpl. destruct (ReadString reader) as [[line err] reader'].
  destruct (bool_decide (err ≠ None) && negb (errIsEOF err)); [done|].
  unfold classify.
  destruct (HasPrefix (TrimSpace line) "data:"); [|done].
  destruct (bool_decide (TrimSpace (TrimPrefix (TrimSpace line) "data:") = "[DONE]")); [done|].
  destruct (unmarshalChunk _) as [uerr|chunk] eqn:Hu.
  - rewrite (unmarshalChunk_not_EOF _ _ Hu). by destruct (bool_decide _).
  - unfold callback. destruct (decide (Answer chunk = "")) as [Ha|Ha].
    + by rewrite (bool_decide_eq_false_2 (Answer chunk ≠ "")), (bool_decide_eq_true_2 _ Ha) by auto.
    + by rewrite (bool_decide_eq_true_2 (Answer chunk ≠ "")), (bool_decide_eq_false_2 _ Ha) by auto.
Qed.

Lemma TrimSpace_empty : TrimSpace "" = "".
Proof. by rewrite TrimSpace_ascii. Qed.

Lemma classify_empty : classify "" = NonDataLine.
Proof. unfold classify. by rewrite TrimSpace_empty. Qed.

(** Reading from an exhausted body that ended cleanly. *)
Lemma readLoop_exhausted fuel onChunk full w :
  readLoop (S fuel) onChunk {| pending := ""; finish := io_EOF |} full w
  = Some (full, None, w).
Proof. rewrite readLoop_unfold. simpl. by rewrite classify_empty. Qed.

Lemma records_cut reader line rest :
  cutLine (pending reader) = Some (line, rest) →
  records reader = classify line :: records {| pending := rest; finish := finish reader |}.
Proof.
  intros (Hl & Ht & _)%cutLine_Some. unfold records, delivered. simpl.
  rewrite Hl. destruct (isEOF (finish reader)); [done|].
  by rewrite filter_cons_True.
Qed.

Lemma records_last reader :
  cutLine (pending reader) = None →
  records reader =
    if isEOF (finish reader) && bool_decide (pending reader ≠ "")
    then [classify (pending reader)] else [].
Proof.
  intros [Hl Ht]%cutLine_None. unfold records, delivered. rewrite Hl.
  destruct (isEOF (finish reader)); simpl.
  - destruct (decide (pending reader = "")) as [He|He].
    + by rewrite (bool_decide_eq_true_2 _ He), bool_decide_eq_false_2 by auto.
    + by rewrite (bool_decide_eq_false_2 _ He), bool_decide_eq_true_2.
  - case_bool_decide; [done|]. rewrite filter_cons_False; [done|]. by rewrite Ht.
Qed.

(** The loop computes the fragments of the body: with enough fuel it
    returns their concatenation appended to [full], the outcome of the
    body, and the state after the callback has seen each fragment. *)
Lemma readLoop_spec fuel onChunk reader full w :
  (String.length (pending reader) + 2 ≤ fuel)%nat →
  readLoop fuel onChunk reader full w =
  Some (full +:+ joinStrings (fragments reader), outcome reader,
        foldl (callback onChunk) w (fragments reader)).
Proof.
  revert reader full w. induction fuel as [|fuel IH]; intros reader full w Hfuel; [lia|].
  rewrite readLoop_unfold. unfold ReadString, fragments, outcome.
  destruct (cutLine (pending reader)) as [[line rest]|] eqn:Hcut.
  - rewrite (records_cut _ _ _ Hcut). simpl.
    apply cutLine_Some in Hcut as (_ & _ & Hlen).
    set (reader' := {| pending := rest; finish := finish reader |}).
    assert (String.length (pending reader') + 2 ≤ fuel)%nat as Hfuel' by (simpl; lia).
    destruct (classify line) as [a| | |]; simpl.
    + case_bool_decide; rewrite IH by done; [done|].
      simpl. by rewrite append_assoc.
    + by rewrite append_empty_r.
    + by rewrite IH.
    + by rewrite IH.
  - rewrite (records_last _ Hcut). simpl.
    destruct (isEOF (finish reader)) eqn:Heof; simpl;
      [|by rewrite append_empty_r].
    assert (finish reader = io_EOF) as Hfin by (by destruct (finish reader)).
    rewrite Hfin, orb_true_r.
    case_bool_decide as Hne; simpl.
    + destruct (classify (pending reader)) as [a| | |]; simpl;
        try by rewrite append_empty_r.
      * case_bool_decide; simpl; by rewrite ?append_empty_r.
      * destruct fuel as [|fuel']; [destruct (pending reader); simpl in *; [done|lia]|].
        rewrite readLoop_exhausted. by rewrite append_empty_r.
    + rewrite Hne, classify_empty. simpl.
      by rewrite append_empty_r.
Qed.

End LoopSpec.

(** ** The structure of [lines] *)

Lemma lines_nonempty (s : string) : s ≠ "" → lines s ≠ [].
Proof. destruct s as [|c s]; [done|]. intros _. simpl. by repeat case_match. Qed.

Lemma lines_app (pre s : string) :
  pre = "" ∨ terminated pre = true → lines (pre +:+ s) = lines pre ++ lines s.
Proof.
  induction pre as [|c pre IH]; [done|]. intros [|Ht]; [done|].
  assert (pre = "" ∨ terminated pre = true) as Hpre.
  { destruct (decide (pre = "")) as [|Hne]; [by left|right].
    by rewrite terminated_cons in Ht. }
  rewrite append_cons. simpl. rewrite (IH Hpre).
  destruct (decide (c = newline)) as [->|Hc]; [done|].
  destruct (decide (pre = "")) as [->|Hne].
  - simpl in Ht. by apply bool_decide_eq_true_1 in Ht.
  - pose proof (lines_nonempty _ Hne). by destruct (lines pre).
Qed.

Lemma lines_all_terminated (pre : string) :
  terminated pre = true → Forall (λ l, terminated l = true) (lines pre).
Proof.
  induction pre as [|c pre IH]; [done|]. intros Ht. simpl.
  destruct (decide (pre = "")) as [->|Hne].
  - simpl in Ht. apply bool_decide_eq_true_1 in Ht as ->. simpl. by repeat constructor.
  - rewrite terminated_cons in Ht by done. specialize (IH Ht).
    destruct (decide (c = newline)) as [->|Hc]; [by constructor|].
    pose proof (lines_nonempty _ Hne).
    destruct (lines pre) as [|l ls]; [done|].
    inversion IH as [|?? Hl Hls]; subst. constructor; [|done].
    rewrite terminated_cons; [done | by apply terminated_nonempty].
Qed.

Lemma lines_lineList (s : string) : lineList (lines s).
Proof.
  induction s as [|c s IH]; [constructor|]. simpl.
  destruct (decide (c = newline)) as [->|Hc].
  - by apply lineList_cons.
  - destruct (lines s) as [|l ls] eqn:Hs.
    + apply lineList_last. simpl. by rewrite decide_False.
    + assert (lines (String c l) = [String c l]) as Hone.
      { inversion IH as [|? Hl|? ? Hl Ht Hls]; subst;
          simpl; by rewrite decide_False, Hl. }
      inversion IH as [|? Hl|? ? Hl Ht Hls]; subst.
      * by apply lineList_last.
      * apply lineList_cons; [done| |done].
        rewrite terminated_cons; [done | by apply terminated_nonempty].
Qed.

Lemma lineList_filter (P : string → Prop) `{∀ l, Decision (P l)} (ls : list string) :
  lineList ls → lineList (filter P ls).
Proof.
  induction 1 as [|l Hl|l ls Hl Ht Hls IH]; [constructor| |].
  - rewrite filter_cons, filter_nil. case_decide; by constructor.
  - rewrite filter_cons. case_decide; [by apply lineList_cons | done].
Qed.

Lemma lineList_join (ls : list string) : lineList ls → lines (joinStrings ls) = ls.
Proof.
  induction 1 as [|l Hl|l ls Hl Ht Hls IH]; [done| |].
  - simpl. by rewrite append_empty_r.
  - simpl. rewrite lines_app by auto. by rewrite Hl, IH.
Qed.

Lemma lineList_terminated_filter (P : string → Prop) `{∀ l, Decision (P l)}
    (ls : list string) :
  filter (λ l, terminated l = true) (filter P ls)
  = filter P (filter (λ l, terminated l = true) ls).
Proof.
  induction ls as [|l ls IH]; [done|].
  rewrite !filter_cons. repeat case_decide; rewrite ?filter_cons;
    repeat case_decide; try done; by rewrite IH.
Qed.

(** ** [Chat] on a response with status 200 *)

Section ChatSpec.
Context `{Strings, JSON} {W : Type}.
Implicit Types (onChunk : option (string → W → W)) (w : W).

Lemma Chat_StatusOK upstream nowMillis conv query deep search onChunk w raw status body :
  compressHistory (History conv) = inr raw →
  upstream (newPayload nowMillis conv query deep search raw) = Response StatusOK status body →
  Chat upstream nowMillis conv query deep search onChunk w =
  Some (joinStrings (fragments body), outcome body,
        foldl (callback onChunk) w (fragments body)).
Proof.
  intros Hraw Hup. unfold Chat. rewrite Hraw, Hup.
  rewrite bool_decide_eq_false_2 by (by intros []).
  rewrite readLoop_spec by lia. done.
Qed.

End ChatSpec.

(** ** Sentinel, clean end and malformed records *)

Lemma answers_done (rs rs' : list RecordKind) :
  answers (rs ++ DoneSentinel :: rs') = answers rs.
Proof.
  induction rs as [|r rs IH]; [done|].
  destruct r as [a| | |]; simpl; [|done..].
  case_bool_decide; by rewrite IH.
Qed.

Section Skipping.
Context `{Strings, JSON}.

Lemma delivered_done pre l post e :
  pre = "" ∨ terminated pre = true → lines l = [l] → terminated l = true →
  ∃ ls, delivered {| pending := pre +:+ l +:+ post; finish := e |} = lines pre ++ l :: ls.
Proof.
  intros Hpre Hl Ht. unfold delivered. simpl.
  rewrite lines_app, lines_app, Hl by auto.
  destruct (isEOF e); [by eexists|].
  rewrite filter_app. change ([l] ++ lines post) with (l :: lines post).
  rewrite filter_cons_True by done.
  eexists. f_equal.
  destruct Hpre as [->|Hpre]; [done|].
  apply lines_all_terminated in Hpre.
  induction Hpre as [|x xs Hx Hxs IH]; [done|].
  by rewrite filter_cons_True, IH.
Qed.

Lemma delivered_removeMalformed s e :
  delivered {| pending := removeMalformed s; finish := e |}
  = filter (λ l, isMalformed (classify l) = false)
      (delivered {| pending := s; finish := e |}).
Proof.
  unfold delivered, removeMalformed. simpl.
  rewrite lineList_join by (apply lineList_filter, lines_lineList).
  destruct (isEOF e); [done|]. apply lineList_terminated_filter.
Qed.

Lemma answers_skip_malformed (ls : list string) :
  answers (classify <$> filter (λ l, isMalformed (classify l) = false) ls)
  = answers (classify <$> ls).
Proof.
  induction ls as [|l ls IH]; [done|].
  rewrite filter_cons. case_decide as Hm.
  - rewrite !fmap_cons. destruct (classify l); simpl; by rewrite ?IH.
  - rewrite fmap_cons. by destruct (classify l).
Qed.

Lemma sentinel_skip_malformed (ls : list string) :
  existsb isDone (classify <$> filter (λ l, isMalformed (classify l) = false) ls)
  = existsb isDone (classify <$> ls).
Proof.
  induction ls as [|l ls IH]; [done|].
  rewrite filter_cons. case_decide as Hm.
  - rewrite !fmap_cons. simpl. by rewrite IH.
  - rewrite fmap_cons. by destruct (classify l).
Qed.

End Skipping.

(** C1.  When the upstream answers with status 200, [Chat] returns the
    concatenation, in arrival order, of the non-empty [answer] fragments
    of the valid [data:] lines of the stream, and the state the callback
    writes to is the one obtained by calling it once on each of these
    fragments in that order.  In particular a stream whose fragments are
    "Hel", "lo", " world" and which then ends gives "Hello world", and a
    recording callback has seen exactly these three, in this order, when
    the call returns. *)
Theorem C1_chat_accumulates_fragments `{Strings, JSON} {W : Type}
    upstream nowMillis conv query deep search (onChunk : option (string → W → W)) (w : W)
    raw status body :
  compressHistory (History conv) = inr raw →
  upstream (newPayload nowMillis conv query deep search raw) = Response StatusOK status body →
  Chat upstream nowMillis conv query deep search onChunk w =
    Some (joinStrings (fragments body), outcome body,
          foldl (callback onChunk) w (fragments body))
  ∧ (fragments body = ["Hel"; "lo"; " world"] → outcome body = None →
     Chat upstream nowMillis conv query deep search recorder [] =
       Some ("Hello world", None, ["Hel"; "lo"; " world"])).
Proof.
  intros Hraw Hup. split.
  - by apply Chat_StatusOK with raw status.
  - intros Hfr Hout. rewrite (Chat_StatusOK _ _ _ _ _ _ _ _ raw status body) by done.
    by rewrite Hfr, Hout.
Qed.

Lemma C1_witness :
  Chat (respond helloBody) 1700000000000 aliceConv "hi" true true recorder [] =
    Some ("Hello world", None, ["Hel"; "lo"; " world"]).
Proof.
  apply (C1_chat_accumulates_fragments (respond helloBody) 1700000000000 aliceConv
           "hi" true true recorder [] (bytesToInts "null") "200 OK" helloBody);
    reflexivity.
Defined.

(** C5.  On a response with status 200 both the sentinel and the end of
    input complete the call normally.  When a line whose payload is
    [[DONE]], such as the line [data:[DONE]], follows the whole lines
    [pre], [Chat] returns the answer accumulated over [pre] with a nil
    error, whatever bytes [post] follow the sentinel and however the
    connection ends after them; and when the body ends with [io.EOF],
    [Chat] returns the answer accumulated over the body with a nil
    error. *)
Theorem C5_done_and_eof_complete `{Strings, JSON} {W : Type}
    upstream nowMillis conv query deep search (onChunk : option (string → W → W)) (w : W)
    raw status :
  compressHistory (History conv) = inr raw →
  (∀ pre l post e,
     pre = "" ∨ terminated pre = true →
     lines l = [l] → terminated l = true → classify l = DoneSentinel →
     upstream (newPayload nowMillis conv query deep search raw)
       = Response StatusOK status {| pending := pre +:+ l +:+ post; finish := e |} →
     Chat upstream nowMillis conv query deep search onChunk w =
       Some (joinStrings (answers (classify <$> lines pre)), None,
             foldl (callback onChunk) w (answers (classify <$> lines pre))))
  ∧ (lines doneLine = [doneLine] ∧ terminated doneLine = true
     ∧ classify doneLine = DoneSentinel)
  ∧ (∀ body,
       finish body = io_EOF →
       upstream (newPayload nowMillis conv query deep search raw)
         = Response StatusOK status body →
       Chat upstream nowMillis conv query deep search onChunk w =
         Some (joinStrings (fragments body), None,
               foldl (callback onChunk) w (fragments body))).
Proof.
  intros Hraw. split; [|split].
  - intros pre l post e Hpre Hl Ht Hdone Hup.
    rewrite (Chat_StatusOK _ _ _ _ _ _ _ _ raw status _ Hraw Hup).
    destruct (delivered_done pre l post e Hpre Hl Ht) as [ls Hd].
    unfold fragments, outcome, records. rewrite Hd, fmap_app, fmap_cons, Hdone.
    rewrite answers_done, existsb_app. simpl. by rewrite orb_true_r.
  - split_and!; [done | done |].
    unfold classify. rewrite (TrimSpace_ascii doneLine) by done.
    change (trimSpace7 doneLine) with "data:[DONE]"%string.
    change (TrimPrefix "data:[DONE]" "data:") with "[DONE]"%string.
    by rewrite (TrimSpace_ascii "[DONE]").
  - intros body Heof Hup.
    rewrite (Chat_StatusOK _ _ _ _ _ _ _ _ raw status _ Hraw Hup).
    unfold outcome. by rewrite Heof, orb_true_r.
Qed.

Lemma C5_witness :
  Chat (respond {| pending := dataLine "Hel" +:+ doneLine +:+ dataLine "lo";
                   finish := errOther "connection reset" |})
       1700000000000 aliceConv "hi" true true recorder [] = Some ("Hel", None, ["Hel"])
  ∧ Chat (respond helloBody) 1700000000000 aliceConv "hi" true true recorder [] =
      Some ("Hello world", None, ["Hel"; "lo"; " world"]).
Proof.
  split.
  - refine (proj1 (C5_done_and_eof_complete
             (respond {| pending := dataLine "Hel" +:+ doneLine +:+ dataLine "lo";
                         finish := errOther "connection reset" |})
             1700000000000 aliceConv "hi" true true recorder []
             (bytesToInts "null") "200 OK" _)
           (dataLine "Hel") doneLine (dataLine "lo") (errOther "connection reset")
           _ _ _ _ _);
      first [reflexivity | right; reflexivity].
  - refine (proj2 (proj2 (C5_done_and_eof_complete (respond helloBody)
             1700000000000 aliceConv "hi" true true recorder []
             (bytesToInts "null") "200 OK" _)) helloBody _ _); reflexivity.
Defined.

(** C6.  A [data:] line whose payload does not parse is skipped: the
    iteration that reads it passes the accumulated answer and the state
    of the callback unchanged to the next iteration, and the call
    returns the same answer, the same error and the same callback state
    as on the stream without its malformed lines. *)
Theorem C6_malformed_lines_skipped `{Strings, JSON} {W : Type}
    up1 up2 nowMillis conv query deep search (onChunk : option (string → W → W)) (w : W)
    raw st1 st2 s e :
  compressHistory (History conv) = inr raw →
  up1 (newPayload nowMillis conv query deep search raw)
    = Response StatusOK st1 {| pending := s; finish := e |} →
  up2 (newPayload nowMillis conv query deep search raw)
    = Response StatusOK st2 {| pending := removeMalformed s; finish := e |} →
  Chat up1 nowMillis conv query deep search onChunk w
    = Chat up2 nowMillis conv query deep search onChunk w
  ∧ (∀ fuel reader line rest full w',
       cutLine (pending reader) = Some (line, rest) → classify line = Malformed →
       readLoop (S fuel) onChunk reader full w'
       = readLoop fuel onChunk {| pending := rest; finish := finish reader |} full w').
Proof.
  intros Hraw Hup1 Hup2. split.
  - rewrite (Chat_StatusOK _ _ _ _ _ _ _ _ raw st1 _ Hraw Hup1).
    rewrite (Chat_StatusOK _ _ _ _ _ _ _ _ raw st2 _ Hraw Hup2).
    unfold fragments, outcome, records. rewrite delivered_removeMalformed.
    by rewrite answers_skip_malformed, sentinel_skip_malformed.
  - intros fuel reader line rest full w' Hcut Hm.
    rewrite readLoop_unfold. unfold ReadString. rewrite Hcut. simpl. by rewrite Hm.
Qed.

Lemma C6_witness :
  Chat (respond {| pending := brokenStream; finish := io_EOF |})
       1700000000000 aliceConv "hi" true true recorder []
  = Chat (respond {| pending := removeMalformed brokenStream; finish := io_EOF |})
         1700000000000 aliceConv "hi" true true recorder [].
Proof.
  refine (proj1 (C6_malformed_lines_skipped
            (respond {| pending := brokenStream; finish := io_EOF |})
            (respond {| pending := removeMalformed brokenStream; finish := io_EOF |})
            1700000000000 aliceConv "hi" true true recorder []
            (bytesToInts "null") "200 OK" "200 OK" brokenStream io_EOF _ _ _));
    reflexivity.
Defined.

Example brokenStream_cleaned :
  removeMalformed brokenStream = dataLine "Hel" +:+ dataLine "lo"
  ∧ Chat (respond {| pending := brokenStream; finish := io_EOF |})
         1700000000000 aliceConv "hi" true true recorder []
    = Some ("Hello", None, ["Hel"; "lo"]).
Proof. split; reflexivity. Qed.

(** ** [performChat] *)

Lemma wrap32_add_sub (x : Z) :
  (-2147483648 ≤ x < 2147483648)%Z → wrap32 (wrap32 (x + 1) + -1) = x.
Proof.
  intros Hx. unfold wrap32.
  replace ((x + 1 + 2147483648) `mod` 4294967296 - 2147483648 + -1 + 2147483648)%Z
    with ((x + 1 + 2147483648) `mod` 4294967296 - 1)%Z by lia.
  rewrite Zminus_mod_idemp_l.
  replace (x + 1 + 2147483648 - 1)%Z with (x + 2147483648)%Z by lia.
  rewrite Z.mod_small by lia. lia.
Qed.

Section PerformChat.
Context `{Strings, JSON} {W : Type}.
Implicit Types (onChunk : option (string → W → W)) (w : W).

(** [Chat] always returns: the bound on the iterations is never reached. *)
Lemma Chat_total upstream nowMillis conv query deep search onChunk w :
  ∃ full err w', Chat upstream nowMillis conv query deep search onChunk w
                 = Some (full, err, w').
Proof.
  unfold Chat. destruct (compressHistory _) as [e|raw]; [by eauto|].
  destruct (upstream _) as [e|code status body]; [by eauto|].
  case_bool_decide; [by eauto|].
  rewrite readLoop_spec by lia. by eauto.
Qed.

End PerformChat.

(** C4.  [performChat] returns, and when the exchange fails the
    conversation keeps its history and its dirty flag: the error is
    that of the transport when the request fails, the status error when
    the status is not 200, and the error of the connection when the body
    breaks, in which case the answer accumulated so far is returned but
    not recorded.  The two turns are appended and the flag is set only
    when the exchange ends without error. *)
Theorem C4_failed_exchange_keeps_history `{Strings, JSON} {W : Type}
    upstream nowMillis t1 t2 conv query deep search
    (onChunk : option (string → W → W)) (w : W) :
  ∃ full err conv' w',
    performChat upstream nowMillis t1 t2 conv query deep search onChunk w
      = Some (full, err, conv', w')
    ∧ (err ≠ None → History conv' = History conv ∧ Dirty conv' = Dirty conv)
    ∧ (History conv' ≠ History conv ∨ Dirty conv' ≠ Dirty conv →
       err = None
       ∧ History conv' = (History conv ++ [{| Source := "user"; Content := query |}])
                           ++ [{| Source := "assistant"; Content := full |}]
       ∧ Dirty conv' = true)
    ∧ (∀ raw, compressHistory (History conv) = inr raw →
       match upstream (newPayload nowMillis conv query deep search raw) with
       | DoError e => err = Some e
       | Response code status body =>
           if bool_decide (code = StatusOK)
           then err = outcome body ∧ full = joinStrings (fragments body)
           else err = Some (errUpstreamHTTP ("miui upstream http " +:+ status))
       end).
Proof.
  set (conv1 := setLastActive t1 (atomicAddInt32 1 conv)).
  destruct (Chat_total upstream nowMillis conv1 query deep search onChunk w)
    as (full & err & w' & HChat).
  unfold performChat. fold conv1. rewrite HChat.
  eexists full, err, _, w'. split; [reflexivity|].
  split_and!.
  - intros Herr. by rewrite bool_decide_eq_false_2.
  - destruct (bool_decide (err = None)) eqn:He; simpl.
    + apply bool_decide_eq_true_1 in He.
      case_bool_decide; simpl; [done|]. by intros [|].
    + by intros [|].
  - intros raw Hraw. revert HChat. unfold Chat.
    change (History conv1) with (History conv). rewrite Hraw.
    change (newPayload nowMillis conv1 query deep search raw)
      with (newPayload nowMillis conv query deep search raw).
    destruct (upstream _) as [e|code status body]; [by intros [= <- <- <-]|].
    destruct (decide (code = StatusOK)) as [->|Hcode].
    + rewrite bool_decide_eq_false_2 by (by intros []).
      rewrite bool_decide_eq_true_2 by done.
      rewrite readLoop_spec by lia. by intros [= <- <- <-].
    + rewrite bool_decide_eq_true_2, bool_decide_eq_false_2 by done.
      by intros [= <- <- <-].
Qed.

Example performChat_broken_body :
  performChat (respond cutBody) 1700000000000 1000 2000 aliceConv "hi" true true recorder []
  = Some ("Hel", Some (errOther "context canceled"), setLastActive 2000 aliceConv, ["Hel"]).
Proof. reflexivity. Qed.

Example performChat_bad_status :
  performChat (λ _, Response 502 "502 Bad Gateway" helloBody)
    1700000000000 1000 2000 aliceConv "hi" true true recorder []
  = Some ("", Some (errUpstreamHTTP "miui upstream http 502 Bad Gateway"),
          setLastActive 2000 aliceConv, []).
Proof. reflexivity. Qed.

Example performChat_success :
  performChat (respond helloBody) 1700000000000 1000 2000 aliceConv "hi" true true recorder []
  = Some ("Hello world", None,
          setLastActive 2000 (appendTurn "hi" "Hello world" aliceConv),
          ["Hel"; "lo"; " world"]).
Proof. reflexivity. Qed.

(** C9.  When the exchange ends without error and the answer is empty
    or blank, [performChat] leaves the conversation as it was, but for
    [LastActive]: no turn is appended and the dirty flag keeps its
    value.  (The counter [InUse] is an [int32].) *)
Theorem C9_blank_answer_not_recorded `{Strings, JSON} {W : Type}
    upstream nowMillis t1 t2 conv query deep search
    (onChunk : option (string → W → W)) (w : W) full conv' w' :
  (-2147483648 ≤ InUse conv < 2147483648)%Z →
  performChat upstream nowMillis t1 t2 conv query deep search onChunk w
    = Some (full, None, conv', w') →
  TrimSpace full = "" →
  conv' = setLastActive t2 conv.
Proof.
  intros Hrange Hperf Hblank. unfold performChat in Hperf.
  destruct (Chat _ _ _ _ _ _ _ _) as [[[full0 err0] w0]|]; [|done].
  injection Hperf as -> -> <- ->.
  rewrite Hblank. rewrite (bool_decide_eq_false_2 ("" ≠ "")) by auto.
  rewrite andb_false_r. destruct conv. unfold atomicAddInt32, setLastActive. simpl in *.
  by rewrite wrap32_add_sub.
Qed.

Lemma C9_witness :
  ∃ conv',
    performChat (respond blankBody) 1700000000000 1000 2000 aliceConv "hi" true true
      recorder [] = Some ("  ", None, conv', ["  "])
    ∧ conv' = setLastActive 2000 aliceConv.
Proof.
  eexists. split; [reflexivity|].
  apply (C9_blank_answer_not_recorded (respond blankBody) 1700000000000 1000 2000
           aliceConv "hi" true true recorder [] "  " _ ["  "]);
    [done | reflexivity | reflexivity].
Defined.

Lemma C4_witness :
  ∃ full err conv' w',
    performChat (respond cutBody) 1700000000000 1000 2000 aliceConv "hi" true true
      recorder [] = Some (full, err, conv', w')
    ∧ (err ≠ None → History conv' = History aliceConv ∧ Dirty conv' = Dirty aliceConv).
Proof.
  destruct (C4_failed_exchange_keeps_history (respond cutBody) 1700000000000 1000 2000
              aliceConv "hi" true true recorder [])
    as (full & err & conv' & w' & Hrun & Hkeep & _).
  exists full, err, conv', w'. split; [exact Hrun | exact Hkeep].
Defined.

(** ** Request options *)

Lemma HasPrefix_app (s b : string) : HasPrefix (s +:+ b) s = true.
Proof.
  unfold HasPrefix. induction s as [|c s IH]; [by destruct b|].
  rewrite append_cons. simpl. by destruct (ascii_dec c c).
Qed.

Lemma Contains_infix (a s b : string) : Contains (a +:+ s +:+ b) s = true.
Proof.
  induction a as [|c a IH].
  - change ("" +:+ s +:+ b) with (s +:+ b).
    assert (∀ x, HasPrefix x s = true → Contains x s = true) as Hp
      by (intros [|??] Hx; unfold Contains; fold Contains; by rewrite Hx).
    apply Hp, HasPrefix_app.
  - rewrite append_cons. simpl. rewrite IH. apply orb_true_r.
Qed.

Lemma Contains_suffix (a s : string) : Contains (a +:+ s) s = true.
Proof. rewrite <- (append_empty_r s) at 1. apply Contains_infix. Qed.

Section Options.
Context `{Strings, JSON}.

Lemma ToLower_suffix (p t : string) :
  isASCII t = true → ToLower (p +:+ t) = ToLower p +:+ lowerASCII t.
Proof. intros Ht. by rewrite ToLower_app_r, (ToLower_ascii t). Qed.

(** The options as a function of the flags of the model name. *)
Lemma parseRequestOptions_flagged body r :
  let '(deep, search, _) := parseModelFlags (index body "model") in
  deep || search = true →
  DeepThinking (parseRequestOptions body r) = deep
  ∧ OnlineSearch (parseRequestOptions body r) = search.
Proof.
  unfold parseRequestOptions.
  destruct (parseModelFlags _) as [[deep search] flag] eqn:Hflags.
  assert (flag = deep || search) as ->.
  { revert Hflags. unfold parseModelFlags. case_bool_decide; by intros [= <- <- <-]. }
  intros Hflag.
  destruct (getBoolOptional body ["deep_thinking"; _; _]) as [d1 ok1].
  destruct (getBoolOptional body ["online_search"; _]) as [s1 ok2].
  by destruct deep, search.
Qed.

End Options.

(** X10.  Where the name of the model decides the flags, whatever the body
    and the headers say: a model name that ends in [-thinking] and whose
    lower-case form does not contain [-search] turns deep thinking on
    and online search off, and a model name that ends in
    [-thinking-search] turns both on. *)
Theorem parseRequestOptions_suffix_rule `{Strings} (body : gmap string any) (r : Request)
    (m : string) :
  index body "model" = anyString m →
  (HasSuffix m "-thinking" → Contains (ToLower m) "-search" = false →
   DeepThinking (parseRequestOptions body r) = true
   ∧ OnlineSearch (parseRequestOptions body r) = false)
  ∧ (HasSuffix m "-thinking-search" →
     DeepThinking (parseRequestOptions body r) = true
     ∧ OnlineSearch (parseRequestOptions body r) = true).
Proof.
  intros Hm. pose proof (parseRequestOptions_flagged body r) as Hopt.
  rewrite Hm in Hopt. unfold parseModelFlags in Hopt. split.
  - intros [p ->] Hsearch.
    rewrite bool_decide_eq_false_2 in Hopt by (by destruct p).
    rewrite Hsearch in Hopt.
    rewrite (ToLower_suffix p "-thinking" eq_refl) in Hopt.
    change (lowerASCII "-thinking") with "-thinking"%string in Hopt.
    rewrite Contains_suffix in Hopt. by apply Hopt.
  - intros [p ->].
    rewrite bool_decide_eq_false_2 in Hopt by (by destruct p).
    rewrite (ToLower_suffix p "-thinking-search" eq_refl) in Hopt.
    change (lowerASCII "-thinking-search") with ("-thinking" +:+ "-search")%string in Hopt.
    rewrite (Contains_infix (ToLower p) "-thinking" "-search") in Hopt.
    rewrite <- append_assoc, Contains_suffix in Hopt. by apply Hopt.
Qed.

Example options_default :
  parseRequestOptions ∅ plainRequest
  = {| Stream := false; DeepThinking := true; OnlineSearch := true; Model := "DOUBAO" |}.
Proof. reflexivity. Qed.

Example options_search_suffix :
  parseRequestOptions {["model" := anyString "gpt-4o-search"]} plainRequest
  = {| Stream := false; DeepThinking := false; OnlineSearch := true; Model := "DOUBAO" |}.
Proof. reflexivity. Qed.

Example options_thinking_search_suffix :
  parseRequestOptions (<["online_search" := anyBool false]>
                         {["model" := anyString "GPT-4o-Thinking-Search"]}) plainRequest
  = {| Stream := false; DeepThinking := true; OnlineSearch := true; Model := "DOUBAO" |}.
Proof. reflexivity. Qed.

Lemma parseRequestOptions_suffix_rule_witness :
  DeepThinking (parseRequestOptions thinkingBody searchRequest) = true
  ∧ OnlineSearch (parseRequestOptions thinkingBody searchRequest) = false.
Proof.
  refine (proj1 (parseRequestOptions_suffix_rule thinkingBody searchRequest "gpt-4o-thinking" _) _ _).
  - reflexivity.
  - by exists "gpt-4o"%string.
  - reflexivity.
Defined.

(** C7 does not hold of the code at the model name [x-search-thinking]:
    the name ends in [-thinking] and the body asks for no search, yet
    the options have online search on, because [parseModelFlags] looks
    for [-search] anywhere in the name. *)
Theorem C7_search_inside_name :
  HasSuffix "x-search-thinking" "-thinking"
  ∧ parseRequestOptions (<["online_search" := anyBool false]>
                           {["model" := anyString "x-search-thinking"]}) plainRequest
    = {| Stream := false; DeepThinking := true; OnlineSearch := true; Model := "DOUBAO" |}.
Proof. split; [by exists "x-search"%string | reflexivity]. Qed.

(** ** User keys *)

Lemma hexEncode_length (buf : list ascii) :
  String.length (hexEncode buf) = (2 * length buf)%nat.
Proof. induction buf as [|b buf IH]; simpl; [done | lia]. Qed.

Lemma hexEncode_allHex (buf : list ascii) : allHex (hexEncode buf) = true.
Proof.
  induction buf as [|b buf IH]; [done|]. simpl. rewrite IH.
  by destruct b as [[] [] [] [] [] [] [] []].
Qed.

Lemma hexDecode_encode (buf : list ascii) : hexDecode (hexEncode buf) = buf.
Proof.
  induction buf as [|b buf IH]; [done|]. simpl. rewrite IH. f_equal.
  by destruct b as [[] [] [] [] [] [] [] []].
Qed.

Lemma randRead_length (entropy buf : list ascii) :
  length (randRead entropy buf) = length buf.
Proof. unfold randRead. rewrite length_app, length_take, length_drop. lia. Qed.

Lemma lowerASCII_length (s : string) : String.length (lowerASCII s) = String.length s.
Proof. induction s as [|c s IH]; simpl; [done | by rewrite IH]. Qed.

Lemma sliceFrom_app (p s : string) : sliceFrom (String.length p) (p +:+ s) = s.
Proof. induction p as [|c p IH]; [by destruct s|]. by rewrite append_cons. Qed.

(** C10, as amended.  With [auth] the trimmed value of the
    [Authorization] header: when [auth] is empty the key is [anon_]
    followed by the 24 hexadecimal digits of the 12 bytes drawn from the
    random source, so that two draws that differ give keys that differ;
    when [auth] starts with [Bearer ] in any mix of cases the key is the
    rest of [auth], trimmed; otherwise the key is [auth]. *)
Theorem C10_user_key `{Strings} (entropy : list ascii) (r : Request) :
  let auth := TrimSpace (Header_Get r "Authorization") in
  (auth = "" →
   extractUserKey entropy r = Some (newUserKey entropy)
   ∧ ∃ hex, newUserKey entropy = "anon_" +:+ hex
            ∧ String.length hex = 24%nat ∧ allHex hex = true)
  ∧ (∀ entropy',
       randRead entropy (makeBytes 12) ≠ randRead entropy' (makeBytes 12) →
       newUserKey entropy ≠ newUserKey entropy')
  ∧ (∀ p token,
       auth = p +:+ token → isASCII p = true → lowerASCII p = "bearer " →
       extractUserKey entropy r = Some (TrimSpace token))
  ∧ (auth ≠ "" → HasPrefix (ToLower auth) "bearer " = false →
     extractUserKey entropy r = Some auth).
Proof.
  intros auth. unfold extractUserKey. fold auth. split_and!.
  - intros ->. split; [done|]. eexists. split; [reflexivity|].
    rewrite hexEncode_length, randRead_length. split; [done|]. apply hexEncode_allHex.
  - intros entropy' Hne Hkey. apply Hne.
    unfold newUserKey in Hkey. simplify_eq/=.
    by rewrite <- (hexDecode_encode (randRead entropy _)), Hkey, hexDecode_encode.
  - intros p token Hauth Hp Hlower.
    assert (String.length p = 7%nat) as Hlen by (by rewrite <- lowerASCII_length, Hlower).
    rewrite bool_decide_eq_false_2 by (rewrite Hauth; by destruct p).
    rewrite Hauth, ToLower_app_l, (ToLower_ascii p), Hlower, HasPrefix_app by done.
    assert ((String.length (p +:+ token) <? 7)%nat = false) as ->
      by (apply Nat.ltb_ge; rewrite append_length; lia).
    by rewrite <- Hlen, sliceFrom_app.
  - intros Hne Hprefix. by rewrite bool_decide_eq_false_2, Hprefix.
Qed.

Lemma C10_witness :
  extractUserKey someEntropy bearerRequest = Some "sk-demo"%string
  ∧ extractUserKey someEntropy plainRequest = Some "anon_0123456789abcdef10325476"%string.
Proof.
  split.
  - refine (proj1 (proj2 (proj2 (C10_user_key someEntropy bearerRequest)))
              "BEARER " " sk-demo" _ _ _); reflexivity.
  - refine (proj1 (proj1 (C10_user_key someEntropy plainRequest) _)). reflexivity.
Defined.

(** Two requests without credentials whose draws from the random source
    coincide get the same key; and a header value that is [Bearer ] and
    nothing else is trimmed first and then returned whole, where the
    token after the prefix is empty. *)
Lemma C10_counterexample :
  extractUserKey someEntropy plainRequest = Some "anon_0123456789abcdef10325476"%string
  ∧ extractUserKey someEntropy blankAuthRequest = Some "anon_0123456789abcdef10325476"%string
  ∧ HasPrefix (Header_Get bareBearerRequest "Authorization") "Bearer " = true
  ∧ extractUserKey someEntropy bareBearerRequest = Some "Bearer"%string.
Proof. repeat split; reflexivity. Qed.

(** ** The write queue *)

Lemma hd_drop_lookup (envs : list TxEnv) (n : nat) :
  hd txOK (drop n envs) = default txOK (envs !! n).
Proof.
  revert envs. induction n as [|n IH]; intros [|env envs]; try done. apply IH.
Qed.

Lemma drop_tl (envs : list TxEnv) (n : nat) : drop n (tl envs) = drop (S n) envs.
Proof. destruct envs as [|env envs]; simpl; [by rewrite drop_nil | done]. Qed.

Lemma writeLoop_app (envs : list TxEnv) (q1 q2 : list writeRequest) (d : DB) :
  fst (writeLoop envs (q1 ++ q2) d)
  = fst (writeLoop (drop (length q1) envs) q2 (fst (writeLoop envs q1 d))).
Proof.
  revert envs d. induction q1 as [|req q1 IH]; intros envs d; [done|].
  simpl. destruct (writeLoopBody _ req d) as [d1 err].
  specialize (IH (tl envs) d1). rewrite drop_tl in IH.
  destruct (writeLoop (tl envs) (q1 ++ q2) d1) as [d2 errs].
  destruct (writeLoop (tl envs) q1 d1) as [d3 errs3]. done.
Qed.

Lemma writeLoopBody_other (env : TxEnv) (req : writeRequest) (d : DB) (k : string * string) :
  rowOf req ≠ Some k →
  conversations_table (fst (writeLoopBody env req d)) !! k = conversations_table d !! k.
Proof.
  intros Hk. unfold writeLoopBody.
  destruct (beginErr env), (execErr env), (commitErr env); try done.
  unfold rowOf in Hk. destruct req as [[u c i h t|u o m t] dn]; simpl in *.
  - rewrite lookup_insert_ne; [done | congruence].
  - by destruct (users_table d !! u).
Qed.

Lemma writeLoop_other (envs : list TxEnv) (q : list writeRequest) (d : DB)
    (k : string * string) :
  Forall (λ req, rowOf req ≠ Some k) q →
  conversations_table (fst (writeLoop envs q d)) !! k = conversations_table d !! k.
Proof.
  intros Hq. revert envs d. induction Hq as [|req q Hreq Hq IH]; intros envs d; [done|].
  simpl. pose proof (writeLoopBody_other (hd txOK envs) req d k Hreq) as Hbody.
  destruct (writeLoopBody _ req d) as [d1 err]. specialize (IH (tl envs) d1).
  destruct (writeLoop (tl envs) q d1) as [d2 errs]. simpl in *. congruence.
Qed.

(** C2.  [persistConversation] queues one request that carries the
    history of the conversation as it is at that moment.  Once the
    worker has gone through the queue, first in first out, and the
    transaction of this request has committed, reading the row of the
    conversation gives this very snapshot, whatever was queued before
    (older snapshots of the same conversation included) and whatever
    requests on other rows were queued after: the row holds the snapshot
    submitted last, all its columns coming from that one request. *)
Theorem C2_persist_read_back `{JSON} (s : Store) (conv : ptr) (c : Conversation)
    (now : Time) (historyJSON : string) (later : list writeRequest) (envs : list TxEnv) :
  heap s !! conv = Some c →
  marshalHistory (History c) = inr historyJSON →
  Forall (λ req, rowOf req ≠ Some (UserKey c, ConversationID c)) later →
  commits (default txOK (envs !! length (writeCh s))) →
  let s1 := persistConversation conv now s in
  writeCh s1 = writeCh s ++
    [{| fn := upsertConversation (UserKey c) (ConversationID c) (InternalID c)
               historyJSON (Unix now);
        done := false |}]
  ∧ db s1 = db s
  ∧ queryConversation None (fst (writeLoop envs (writeCh s1 ++ later) (db s1)))
      (UserKey c) (ConversationID c)
    = inr {| internal_conv_id := InternalID c; history_json := historyJSON;
             updated_at := Unix now |}.
Proof.
  intros Hconv Hjson Hlater Hcommit s1.
  assert (writeCh s1 = writeCh s ++
    [{| fn := upsertConversation (UserKey c) (ConversationID c) (InternalID c)
               historyJSON (Unix now);
        done := false |}] ∧ db s1 = db s) as [Hq Hdb].
  { unfold s1, persistConversation. by rewrite Hconv, Hjson. }
  split_and!; [done | done |].
  unfold queryConversation.
  rewrite writeLoop_app, writeLoop_other by done.
  rewrite Hq, Hdb, writeLoop_app. simpl.
  rewrite hd_drop_lookup. destruct Hcommit as (Hb & He & Hc).
  unfold writeLoopBody. rewrite Hb, He, Hc. simpl.
  by rewrite lookup_insert_eq.
Qed.

Lemma C2_witness :
  queryConversation None
    (fst (writeLoop [txBusy; txOK; txBusy]
            (writeCh (persistConversation 7%nat (200 * second) bobStore) ++ [carolRequest])
            emptyDB)) "bob" "s1"
  = inr {| internal_conv_id := "89abcdef012345671690000000000";
           history_json := "[{" +:+ quoted "source" +:+ ":" +:+ quoted "user" +:+ ","
                             +:+ quoted "content" +:+ ":" +:+ quoted "hi" +:+ "},{"
                             +:+ quoted "source" +:+ ":" +:+ quoted "assistant" +:+ ","
                             +:+ quoted "content" +:+ ":" +:+ quoted "hello" +:+ "}]";
           updated_at := 200 |}.
Proof.
  refine (proj2 (proj2 (C2_persist_read_back bobStore 7%nat bobConv (200 * second) _
                          [carolRequest] [txBusy; txOK; txBusy] _ _ _ _))).
  - reflexivity.
  - reflexivity.
  - by repeat constructor.
  - by repeat split.
Defined.

Example persisted_history_decodes :
  match queryConversation None
          (fst (writeLoop [txBusy; txOK; txBusy]
                  (writeCh (persistConversation 7%nat (200 * second) bobStore)
                     ++ [carolRequest]) emptyDB)) "bob" "s1" with
  | inr row => unmarshalHistory (history_json row) = History bobConv
  | inl _ => False
  end.
Proof. reflexivity. Qed.

(** ** The cleanup loop *)

Lemma inUseRespected_app (tr block : list Event) :
  inUseRespected tr → inUseRespected block →
  (∀ ev, block !! 0%nat = Some ev → isExamined ev) →
  inUseRespected (tr ++ block).
Proof.
  intros Htr Hblock Hfirst i pass key conv n Hi Hn ev Hev.
  destruct (decide (i < length tr)%nat) as [Hlt|Hge].
  - rewrite lookup_app_l in Hi by done.
    destruct (decide (S i < length tr)%nat) as [Hlt'|Hge'].
    + rewrite lookup_app_l in Hev by done. by eapply Htr.
    + rewrite lookup_app_r in Hev by lia.
      replace (S i - length tr)%nat with 0%nat in Hev by lia. by apply Hfirst.
  - rewrite lookup_app_r in Hi by lia. rewrite lookup_app_r in Hev by lia.
    replace (S i - length tr)%nat with (S (i - length tr)) in Hev by lia.
    by eapply Hblock.
Qed.

Lemma scannedIdle_app (tr block : list Event) (key : string) (i0 : nat) :
  scannedIdle tr key i0 → scannedIdle (tr ++ block) key i0.
Proof.
  intros [conv0 Hi0]. exists conv0.
  rewrite lookup_app_l; [done | by eapply lookup_lt_Some].
Qed.

Lemma deletionsJustified_app (tr block : list Event) :
  deletionsJustified tr →
  (∀ j key conv, block !! j ≠ Some (Deleted key conv)) →
  deletionsJustified (tr ++ block).
Proof.
  intros Htr Hblock j key conv Hj.
  destruct (decide (j < length tr)%nat) as [Hlt|Hge].
  - rewrite lookup_app_l in Hj by done.
    destruct (Htr _ _ _ Hj) as (i & h & i0 & -> & Hi & Hp & Hlt0 & Hs).
    exists i, h, i0. split_and!; [done| | |done|by apply scannedIdle_app].
    + rewrite lookup_app_l; [done|lia].
    + rewrite lookup_app_l; [done|lia].
  - rewrite lookup_app_r in Hj by lia. by apply Hblock in Hj.
Qed.

Lemma deletionsJustified_evict (tr : list Event) (key : string) (conv : ptr)
    (h : list Message) (i0 : nat) :
  deletionsJustified tr → scannedIdle tr key i0 →
  deletionsJustified
    (tr ++ [Examined WriteLocked key conv 0; Persisted conv h; Deleted key conv]).
Proof.
  intros Htr Hs j key' conv' Hj.
  destruct (decide (j < length tr)%nat) as [Hlt|Hge].
  - rewrite lookup_app_l in Hj by done.
    destruct (Htr _ _ _ Hj) as (i & h' & i1 & -> & Hi & Hp & Hlt0 & Hs').
    exists i, h', i1. split_and!; [done| | |done|by apply scannedIdle_app].
    + rewrite lookup_app_l; [done|lia].
    + rewrite lookup_app_l; [done|lia].
  - rewrite lookup_app_r in Hj by lia.
    destruct (j - length tr)%nat as [|[|[|k]]] eqn:Hk; simplify_eq/=.
    exists (length tr), h, i0. split_and!.
    + lia.
    + by rewrite lookup_app_r, Nat.sub_diag by lia.
    + rewrite lookup_app_r by lia. by replace (S (length tr) - length tr)%nat with 1%nat by lia.
    + destruct Hs as [c0 Hc0]. by eapply lookup_lt_Some.
    + by apply scannedIdle_app.
Qed.

Section CleanupLoop.
Context `{JSON}.

Lemma persistConversation_nonneg conv now s :
  countersNonNegative s → countersNonNegative (persistConversation conv now s).
Proof.
  intros Hs. unfold persistConversation.
  destruct (heap s !! conv) as [c|] eqn:Hc; [|done].
  assert (countersNonNegative (setHeap (<[conv:=markPersisted now c]> (heap s)) s)) as Hs'.
  { intros l c'. simpl. rewrite lookup_insert. case_decide.
    - intros [= <-]. simpl. by eapply Hs.
    - apply Hs. }
  by destruct (marshalHistory (History c)).
Qed.

Lemma tickInvariant_block s s' keys tr block :
  tickInvariant s keys tr → countersNonNegative s' →
  inUseRespected block → (∀ ev, block !! 0%nat = Some ev → isExamined ev) →
  (∀ j key conv, block !! j ≠ Some (Deleted key conv)) →
  tickInvariant s' keys (tr ++ block).
Proof.
  intros (_ & HA & HB & HK) Hs' Hblock Hfirst Hdel. split_and!.
  - done.
  - by apply inUseRespected_app.
  - by apply deletionsJustified_app.
  - intros key Hkey. destruct (HK key Hkey) as [i0 Hi0].
    exists i0. by apply scannedIdle_app.
Qed.

Lemma inUseRespected_examined pass key conv n :
  inUseRespected [Examined pass key conv n].
Proof. intros [|i] ????? ? ev Hev; simplify_eq/=. Qed.

Lemma inUseRespected_idle pass key conv block :
  inUseRespected block → (∀ ev, block !! 0%nat = Some ev → ¬ isExamined ev) →
  inUseRespected (Examined pass key conv 0 :: block).
Proof.
  intros Hblock Hfirst [|i] ???? Hi Hn ev Hev; simplify_eq/=; [lia|].
  by eapply Hblock.
Qed.

Lemma inUseRespected_tail (block : list Event) :
  (∀ i ev, block !! i = Some ev → ¬ isExamined ev) → inUseRespected block.
Proof. intros Hno i ???? Hi. by apply Hno in Hi. Qed.

(** The pass under the read lock keeps the invariant. *)
Lemma scanEntry_invariant now entry s keys tr :
  tickInvariant s keys tr →
  let '(s', keys', tr') := scanEntry now entry (s, keys, tr) in
  tickInvariant s' keys' tr'.
Proof.
  intros Hinv. destruct entry as [key conv]. unfold scanEntry.
  destruct (heap s !! conv) as [c|] eqn:Hc; [|done].
  pose proof Hinv as (Hs & _). pose proof (Hs _ _ Hc) as Hn.
  destruct (InUse c >? 0)%Z eqn:Hpos.
  { apply tickInvariant_block with s; [done | done | | |].
    - apply inUseRespected_examined.
    - by intros ev ?; simplify_eq/=.
    - by intros [|j] ??; simpl. }
  assert (InUse c = 0%Z) as Hzero by lia. rewrite Hzero.
  set (persisting := Dirty c && (now - LastPersist c >=? persistAfter)%Z).
  assert (∃ s' block,
    (if persisting
     then (persistConversation conv now s,
           (tr ++ [Examined ReadLocked key conv 0]) ++ [Persisted conv (History c)])
     else (s, tr ++ [Examined ReadLocked key conv 0]))
    = (s', tr ++ Examined ReadLocked key conv 0 :: block)
    ∧ countersNonNegative s'
    ∧ (∀ i ev, block !! i = Some ev → ¬ isExamined ev)
    ∧ (∀ j k c', block !! j ≠ Some (Deleted k c'))) as (s' & block & -> & Hs' & Hblock & Hdel).
  { destruct persisting.
    - eexists _, [_]. rewrite <- app_assoc. split_and!; [done| | |].
      + by apply persistConversation_nonneg.
      + intros [|i] ev Hev Hex; by simplify_eq/=.
      + by intros [|[|j]] ??; simpl.
    - eexists _, []. by split_and!. }
  assert (tickInvariant s' keys (tr ++ Examined ReadLocked key conv 0 :: block)) as Hinv'.
  { apply tickInvariant_block with s; [done | done | | |].
    - apply inUseRespected_idle; [by apply inUseRespected_tail | by intros ev; apply Hblock].
    - by intros ev ?; simplify_eq/=.
    - intros [|j] ??; simpl; [done | apply Hdel]. }
  destruct (now - LastActive c >=? evictAfter)%Z; [|done].
  destruct Hinv' as (? & ? & ? & HK). split_and!; try done.
  intros k [Hk| ->%list_elem_of_singleton]%elem_of_app; [by apply HK|].
  exists (length tr), conv. by rewrite lookup_app_r, Nat.sub_diag by lia.
Qed.

(** The pass under the write lock keeps the invariant. *)
Lemma evictEntry_invariant now key s keys tr :
  tickInvariant s keys tr → key ∈ keys →
  let '(s', tr') := evictEntry now key (s, tr) in
  tickInvariant s' keys tr'.
Proof.
  intros Hinv Hkey. unfold evictEntry.
  destruct (convs s !! key) as [conv|] eqn:Hconv; [|done].
  destruct (heap s !! conv) as [c|] eqn:Hc; [|done].
  pose proof Hinv as (Hs & HA & HB & HK). pose proof (Hs _ _ Hc) as Hn.
  destruct (InUse c >? 0)%Z eqn:Hpos.
  { apply tickInvariant_block with s; [done | done | | |].
    - apply inUseRespected_examined.
    - by intros ev ?; simplify_eq/=.
    - by intros [|j] ??; simpl. }
  assert (InUse c = 0%Z) as Hzero by lia. rewrite Hzero.
  rewrite <- !app_assoc. simpl. split_and!.
  - by apply persistConversation_nonneg.
  - apply inUseRespected_app; [done | | by intros ev ?; simplify_eq/=].
    apply inUseRespected_idle; [apply inUseRespected_tail|].
    + intros [|[|i]] ev Hev Hex; by simplify_eq/=.
    + intros ev Hev Hex; by simplify_eq/=.
  - destruct (HK key Hkey) as [i0 Hi0]. by eapply deletionsJustified_evict.
  - intros k Hk. destruct (HK k Hk) as [i0 Hi0]. exists i0. by apply scannedIdle_app.
Qed.

Section Interleaving.
Variable others : nat → Store → Store.
Hypothesis others_nonneg : ∀ i s, countersNonNegative s → countersNonNegative (others i s).

Lemma scanLoop_invariant now entries i s keys tr :
  tickInvariant s keys tr →
  let '(s', keys', tr') := scanLoop others now i entries (s, keys, tr) in
  tickInvariant s' keys' tr'.
Proof.
  revert i s keys tr. induction entries as [|entry entries IH]; intros i s keys tr Hinv;
    [done|].
  cbn [scanLoop].
  assert (tickInvariant (others i s) keys tr) as Hinv'.
  { destruct Hinv as (? & ? & ? & ?). split_and!; try done. by apply others_nonneg. }
  apply (scanEntry_invariant now entry) in Hinv'.
  destruct (scanEntry now entry (others i s, keys, tr)) as [[s1 keys1] tr1].
  by apply IH.
Qed.

Lemma evictLoop_invariant now evictKeys i s keys tr :
  tickInvariant s keys tr → evictKeys ⊆ keys →
  let '(s', tr') := evictLoop others now i evictKeys (s, tr) in
  tickInvariant s' keys tr'.
Proof.
  revert i s tr. induction evictKeys as [|key evictKeys IH]; intros i s tr Hinv Hsub;
    [done|].
  cbn [evictLoop].
  assert (tickInvariant (others i s) keys tr) as Hinv'.
  { destruct Hinv as (? & ? & ? & ?). split_and!; try done. by apply others_nonneg. }
  apply (evictEntry_invariant now key) in Hinv'; [|set_solver].
  destruct (evictEntry now key (others i s, tr)) as [s1 tr1].
  apply IH; [done | set_solver].
Qed.

Lemma cleanupTickOver_invariant now entries s :
  countersNonNegative s →
  let '(s', tr) := cleanupTickOver others now entries s in
  countersNonNegative s' ∧ inUseRespected tr ∧ deletionsJustified tr.
Proof.
  intros Hs. unfold cleanupTickOver.
  assert (tickInvariant s [] []) as Hinv.
  { split_and!; [done | | |]; [by intros ? | by intros ? | set_solver]. }
  apply (scanLoop_invariant now entries 0) in Hinv.
  destruct (scanLoop others now 0 entries (s, [], [])) as [[s1 keys] tr1].
  destruct keys as [|key keys]; [by destruct Hinv as (? & ? & ? & ?)|].
  apply (evictLoop_invariant now (key :: keys) (length entries)) in Hinv; [|done].
  destruct (evictLoop _ _ _ _ _) as [s2 tr2]. by destruct Hinv as (? & ? & ? & ?).
Qed.

End Interleaving.

End CleanupLoop.

Lemma twoStore_nonneg : countersNonNegative twoStore.
Proof.
  intros conv c. unfold twoStore. simpl. rewrite lookup_insert.
  case_decide; [by intros [= <-]|].
  rewrite lookup_singleton. case_decide; [by intros [= <-] | done].
Defined.

Example tick_quiet :
  snd (cleanupTickOver quiet tickTime twoEntries twoStore)
  = [Examined ReadLocked "bob|s1" 7%nat 0; Persisted 7%nat (History bobConv);
     Examined ReadLocked "alice|default" 8%nat 1;
     Examined WriteLocked "bob|s1" 7%nat 0; Persisted 7%nat (History bobConv);
     Deleted "bob|s1" 7%nat]
  ∧ convs (fst (cleanupTickOver quiet tickTime twoEntries twoStore))
    = {["alice|default" := 8%nat]}.
Proof. split; [reflexivity|]. by vm_compute. Qed.

Example tick_request_between_passes :
  snd (cleanupTickOver startsBetweenPasses tickTime twoEntries twoStore)
  = [Examined ReadLocked "bob|s1" 7%nat 0; Persisted 7%nat (History bobConv);
     Examined ReadLocked "alice|default" 8%nat 1;
     Examined WriteLocked "bob|s1" 7%nat 1]
  ∧ convs (fst (cleanupTickOver startsBetweenPasses tickTime twoEntries twoStore))
    = convs twoStore.
Proof. split; [reflexivity|]. by vm_compute. Qed.

(** * Further properties *)

(** ** The write queue as a whole *)

Lemma writeLoopBody_txError (env : TxEnv) (req : writeRequest) (d : DB) :
  writeLoopBody env req d
  = (match txError env with None => execStatement (fn req) d | Some _ => d end,
     txError env).
Proof.
  unfold writeLoopBody, txError.
  by destruct (beginErr env), (execErr env), (commitErr env).
Qed.


Lemma writeLoop_foldl (envs : list TxEnv) (queue : list writeRequest) (d : DB) :
  fst (writeLoop envs queue d)
  = foldl (λ d req, execStatement (fn req) d) d (committed envs queue).
Proof.
  revert envs d. induction queue as [|req queue IH]; intros envs d; [done|].
  simpl. rewrite writeLoopBody_txError. specialize (IH (tl envs)).
  destruct (txError (hd txOK envs)); simpl.
  - rewrite <- IH. by destruct (writeLoop (tl envs) queue d).
  - rewrite <- IH. by destruct (writeLoop (tl envs) queue _).
Qed.

Lemma users_after_statements (reqs : list writeRequest) (d : DB) (userKey : string) :
  users_table (foldl (λ d req, execStatement (fn req) d) d reqs) !! userKey
  = match users_table d !! userKey with
    | Some row => Some row
    | None => firstInsert userKey reqs
    end.
Proof.
  revert d. induction reqs as [|req reqs IH]; intros d; [by destruct (_ !! _)|].
  simpl. rewrite IH. destruct req as [[u c i h t|u o m t] dn]; simpl; [done|].
  destruct (users_table d !! u) as [row0|] eqn:Hu.
  - case_bool_decide as Heq; [subst; by rewrite Hu|]. done.
  - simpl. rewrite lookup_insert. case_bool_decide as Heq; case_decide; try done.
    subst. by rewrite Hu.
Qed.

Lemma writeLoop_user_kept (envs : list TxEnv) (queue : list writeRequest) (d : DB)
    (userKey : string) (row : UserRow) :
  users_table d !! userKey = Some row →
  users_table (fst (writeLoop envs queue d)) !! userKey = Some row.
Proof. intros Hrow. by rewrite writeLoop_foldl, users_after_statements, Hrow. Qed.

(** X2.  Rows of table [users] are written once: whatever the queue
    holds and however its transactions end, a user that has a row keeps
    it, and a user without a row gets the row of the first committed
    insert for its key, none if there is no such insert. *)
Theorem users_rows_written_once (envs : list TxEnv) (queue : list writeRequest) (d : DB)
    (userKey : string) :
  users_table (fst (writeLoop envs queue d)) !! userKey
  = match users_table d !! userKey with
    | Some row => Some row
    | None => firstInsert userKey (committed envs queue)
    end.
Proof. by rewrite writeLoop_foldl, users_after_statements. Qed.

(** ** User resolution *)

Section Users.
Context `{JSON}.

Lemma getOrCreateUser_frame env userKey s r s1 :
  getOrCreateUser env userKey s = (r, s1) →
  heap s1 = heap s ∧ convs s1 = convs s.
Proof.
  unfold getOrCreateUser.
  destruct (users s !! userKey); [by intros [= <- <-]|].
  destruct (queryUser _ _ _) as [err|row]; [|by intros [= <- <-]].
  destruct (isErrNoRows err); simpl; [|by intros [= <- <-]].
  destruct (writeLoop _ _ _) as [d errs].
  destruct (last errs) as [[e|]|]; [by intros [= <- <-]| |];
    (simpl; destruct (queryUser _ _ _); by intros [= <- <-]).
Qed.

Lemma usersAgree_cache s userKey row :
  usersAgree s → users_table (db s) !! userKey = Some row →
  usersAgree (setUsers (<[userKey := {| User.OAID := oaid row; User.MiID := mi_id row |}]>
                          (users s)) s).
Proof.
  intros Hs Hrow k u. simpl. rewrite lookup_insert. case_decide as Hk.
  - intros [= <-]. subst. by exists row.
  - apply Hs.
Qed.

Lemma queryUser_Some fault d userKey row :
  queryUser fault d userKey = inr row → users_table d !! userKey = Some row.
Proof.
  unfold queryUser. destruct fault; [done|].
  destruct (users_table d !! userKey); [by intros [= <-] | done].
Qed.

Lemma getOrCreateUser_agree env userKey s r s1 :
  usersAgree s → getOrCreateUser env userKey s = (r, s1) →
  usersAgree s1
  ∧ ∀ o m, r = inr (o, m) →
      users s1 !! userKey = Some {| User.OAID := o; User.MiID := m |}.
Proof.
  intros Hs. unfold getOrCreateUser.
  destruct (users s !! userKey) as [user|] eqn:Hhit.
  { intros [= <- <-]. split; [done|]. intros o m [= <- <-]. by destruct user. }
  destruct (queryUser _ _ _) as [err|row] eqn:Hq.
  2:{ intros [= <- <-]. apply queryUser_Some in Hq. split.
      - by apply usersAgree_cache.
      - intros o m [= <- <-]. simpl. by rewrite lookup_insert_eq. }
  destruct (isErrNoRows err); simpl; [|by intros [= <- <-]].
  pose proof (writeLoop_user_kept (workerEnvs env)
    (writeCh s ++ [{| fn := insertUserOrIgnore userKey (newOAID (randOAID env))
                              (newMiID (randMiID env)) (Unix (clock env));
                      done := true |}]) (db s)) as Hkept.
  destruct (writeLoop _ _ _) as [d errs]. simpl in Hkept.
  assert (usersAgree (setWriteCh [] (setDB d s))) as Hs'.
  { intros k u Hk. destruct (Hs k u Hk) as (row & Hrow & ? & ?).
    exists row. split; [|done]. simpl. by apply Hkept. }
  assert (∀ r s1,
    match queryUser (userRequeryFault env) (db (setWriteCh [] (setDB d s))) userKey with
    | inl err0 => (inl err0, setWriteCh [] (setDB d s))
    | inr row =>
        (inr (oaid row, mi_id row),
         setUsers (<[userKey := {| User.OAID := oaid row; User.MiID := mi_id row |}]>
                     (users (setWriteCh [] (setDB d s)))) (setWriteCh [] (setDB d s)))
    end = (r, s1) →
    usersAgree s1
    ∧ ∀ o m, r = inr (o, m) →
        users s1 !! userKey = Some {| User.OAID := o; User.MiID := m |}) as Hre.
  { intros r' s1'. destruct (queryUser (userRequeryFault env) _ _) as [err0|row] eqn:Hq2.
    - by intros [= <- <-].
    - intros [= <- <-]. apply queryUser_Some in Hq2. split.
      + by apply (usersAgree_cache (setWriteCh [] (setDB d s))).
      + intros o m [= <- <-]. simpl. by rewrite lookup_insert_eq. }
  destruct (last errs) as [[e|]|]; [by intros [= <- <-] | apply Hre | apply Hre].
Qed.

End Users.

(** X3.  The identity [getOrCreateUser] returns is the one the table
    holds: when the cache agrees with the table before the call it does
    so after it, the pair returned is in the row of the user (also when
    somebody else inserted the user first), and asking again returns
    the same pair and leaves the store as it is. *)
Theorem getOrCreateUser_stable_identity `{JSON} (env env2 : Env) (userKey : string)
    (s s1 : Store) (o m : string) :
  usersAgree s →
  getOrCreateUser env userKey s = (inr (o, m), s1) →
  usersAgree s1
  ∧ (∃ row, users_table (db s1) !! userKey = Some row ∧ oaid row = o ∧ mi_id row = m)
  ∧ getOrCreateUser env2 userKey s1 = (inr (o, m), s1).
Proof.
  intros Hs Hget.
  destruct (getOrCreateUser_agree env userKey s _ s1 Hs Hget) as [Hs1 Hcache].
  specialize (Hcache o m eq_refl). split_and!.
  - done.
  - destruct (Hs1 _ _ Hcache) as (row & ? & ? & ?). by exists row.
  - unfold getOrCreateUser. by rewrite Hcache.
Qed.

Lemma getOrCreateUser_stable_identity_witness :
  ∃ o m s1,
    getOrCreateUser calmEnv "alice" emptyStore = (inr (o, m), s1)
    ∧ getOrCreateUser calmEnv "alice" s1 = (inr (o, m), s1).
Proof.
  destruct (getOrCreateUser calmEnv "alice" emptyStore) as [[e|[o m]] s1] eqn:Hget.
  - exfalso. vm_compute in Hget. discriminate.
  - exists o, m, s1. split; [reflexivity|].
    refine (proj2 (proj2 (getOrCreateUser_stable_identity calmEnv calmEnv "alice"
                            emptyStore s1 o m _ Hget))).
    intros userKey user Hin. simpl in Hin. by rewrite lookup_empty in Hin.
Defined.

(** ** Resolving conversations *)

Section Resolve.
Context `{JSON}.

Lemma GetConversation_cases env userKey conversationID s r s1 :
  GetConversation env userKey conversationID s = (r, s1) →
  let key := userKey +:+ "|" +:+ sessionID conversationID in
  (∃ conv, convs s !! key = Some conv ∧ r = inr conv ∧ s1 = s)
  ∨ (convs s !! key = None ∧ ∃ e, r = inl e ∧ heap s1 = heap s ∧ convs s1 = convs s)
  ∨ (convs s !! key = None
     ∧ ∃ s0 o m internalID history,
         getOrCreateUser env userKey s = (inr (o, m), s0)
         ∧ match queryConversation (convQueryFault env) (db s0) userKey
                   (sessionID conversationID) with
           | inr row =>
               internalID = internal_conv_id row
               ∧ history = unmarshalHistory (history_json row)
           | inl err =>
               isErrNoRows err = true
               ∧ internalID = newConversationID o (clockMillis env) ∧ history = []
           end
         ∧ r = inr (fresh (dom (heap s0)))
         ∧ s1 = setConvs (<[key := fresh (dom (heap s0))]> (convs s0))
                  (setHeap (<[fresh (dom (heap s0)) :=
                      {| UserKey := userKey; ConversationID := sessionID conversationID;
                         OAID := o; MiID := m; InternalID := internalID; InUse := 0;
                         History := history; LastActive := clockLastActive env;
                         LastPersist := clockLastPersist env; Dirty := false |}]>
                      (heap s0)) s0)).
Proof.
  unfold GetConversation, sessionID.
  set (cid := if bool_decide (conversationID = "") then "default"%string else conversationID).
  intros Hget. set (key := userKey +:+ "|" +:+ cid) in *.
  destruct (convs s !! key) as [conv|] eqn:Hkey.
  { left. exists conv. by simplify_eq. }
  right.
  destruct (getOrCreateUser env userKey s) as [[err|[o m]] s0] eqn:Huser.
  { left. split; [done|]. simplify_eq. exists err.
    by destruct (getOrCreateUser_frame _ _ _ _ _ Huser). }
  destruct (getOrCreateUser_frame _ _ _ _ _ Huser) as [Hheap Hconvs].
  destruct (queryConversation _ _ _ _) as [err|row] eqn:Hq.
  - destruct (isErrNoRows err) eqn:Hno.
    + right. split; [done|]. simplify_eq.
      eexists s0, o, m, _, _. rewrite Hq. by split_and!.
    + left. split; [done|]. simplify_eq. by exists err.
  - right. split; [done|]. simplify_eq.
    eexists s0, o, m, _, _. rewrite Hq. by split_and!.
Qed.

End Resolve.

Lemma fresh_not_in_heap (s : Store) : heap s !! fresh (dom (heap s)) = None.
Proof. apply not_elem_of_dom, is_fresh. Qed.

(** X4.  [GetConversation] keeps the table consistent: when every entry
    points to an object whose user key and session id make up its key,
    this holds again after the call, whether it succeeds or fails.  The
    objects that were in the heap are left as they are; a failed call
    changes neither the table nor the heap; a successful call returns an
    object filed under the key of the pair, an empty session id
    standing for [default]. *)
Theorem GetConversation_table_consistent `{JSON} (env : Env) (userKey conversationID : string)
    (s s1 : Store) (r : error + ptr) :
  tableConsistent s →
  GetConversation env userKey conversationID s = (r, s1) →
  tableConsistent s1
  ∧ (∀ conv c, heap s !! conv = Some c → heap s1 !! conv = Some c)
  ∧ (∀ e, r = inl e → convs s1 = convs s ∧ heap s1 = heap s)
  ∧ (∀ conv, r = inr conv →
       convs s1 !! (userKey +:+ "|" +:+ sessionID conversationID) = Some conv
       ∧ ∃ c, heap s1 !! conv = Some c
              ∧ cacheKey c = userKey +:+ "|" +:+ sessionID conversationID).
Proof.
  intros Hs Hget.
  destruct (GetConversation_cases _ _ _ _ _ _ Hget)
    as [(conv & Hkey & -> & ->)|[(Hkey & e & -> & Hheap & Hconvs)|(Hkey & Hnew)]].
  - split_and!; [done | done | done |].
    intros ? [= <-]. split; [done|].
    destruct (Hs _ _ Hkey) as (c & Hc & Hk). by exists c.
  - split_and!; [|by rewrite Hheap | done | done].
    intros key conv. rewrite Hconvs, Hheap. apply Hs.
  - destruct Hnew as (s0 & o & m & internalID & history & Huser & _ & -> & ->).
    destruct (getOrCreateUser_frame _ _ _ _ _ Huser) as [Hheap Hconvs].
    pose proof (fresh_not_in_heap s0) as Hfresh.
    set (conv := fresh (dom (heap s0))) in *.
    assert (∀ p c, heap s !! p = Some c → p ≠ conv) as Hold.
    { intros p c Hp ->. rewrite <- Hheap in Hp. congruence. }
    split_and!.
    + intros key p. simpl. rewrite lookup_insert. case_decide as Hk.
      * intros [= <-]. eexists. rewrite lookup_insert_eq. by split.
      * rewrite Hconvs. intros Hp. destruct (Hs _ _ Hp) as (c & Hc & Hkc).
        exists c. split; [|done].
        rewrite lookup_insert_ne by (symmetry; by eapply Hold). by rewrite Hheap.
    + intros p c Hp. simpl.
      rewrite lookup_insert_ne by (symmetry; by eapply Hold). by rewrite Hheap.
    + done.
    + intros ? [= <-]. simpl. rewrite !lookup_insert_eq. split; [done|].
      by eexists.
Qed.

Lemma GetConversation_table_consistent_witness :
  ∃ conv s1,
    GetConversation calmEnv "alice" "" emptyStore = (inr conv, s1)
    ∧ tableConsistent s1
    ∧ convs s1 !! "alice|default" = Some conv.
Proof.
  destruct (GetConversation calmEnv "alice" "" emptyStore) as [[e|conv] s1] eqn:Hget.
  - exfalso. vm_compute in Hget. discriminate.
  - exists conv, s1. split; [reflexivity|].
    destruct (GetConversation_table_consistent calmEnv "alice" "" emptyStore s1
                (inr conv)) as (Hs1 & _ & _ & Hfiled).
    + intros key p Hin. simpl in Hin. by rewrite lookup_empty in Hin.
    + exact Hget.
    + split; [exact Hs1|]. exact (proj1 (Hfiled conv eq_refl)).
Defined.

(** X5.  A conversation that is not cached is built from what the
    database holds: the object is new in the heap, nobody uses it and
    it is clean; with a row for the pair it takes over the internal
    identifier of the row and the history decoded from it, without one
    it starts with an empty history and an identifier made of the OAID
    of the user and the clock in milliseconds. *)
Theorem GetConversation_cold_load `{JSON} (env : Env) (userKey conversationID : string)
    (s s1 : Store) (conv : ptr) :
  convQueryFault env = None →
  convs s !! (userKey +:+ "|" +:+ sessionID conversationID) = None →
  GetConversation env userKey conversationID s = (inr conv, s1) →
  heap s !! conv = None
  ∧ ∃ c, heap s1 !! conv = Some c
         ∧ InUse c = 0%Z ∧ Dirty c = false
         ∧ LastActive c = clockLastActive env ∧ LastPersist c = clockLastPersist env
         ∧ match conversations_table (db s1) !! (userKey, sessionID conversationID) with
           | Some row =>
               InternalID c = internal_conv_id row
               ∧ History c = unmarshalHistory (history_json row)
           | None =>
               InternalID c = OAID c +:+ formatInt (clockMillis env) ∧ History c = []
           end.
Proof.
  intros Hfault Hmiss Hget.
  destruct (GetConversation_cases _ _ _ _ _ _ Hget)
    as [(conv0 & Hkey & _)|[(_ & e & ? & _)|(_ & Hnew)]]; [congruence | done |].
  destruct Hnew as (s0 & o & m & internalID & history & Huser & Hrow & [= ->] & ->).
  destruct (getOrCreateUser_frame _ _ _ _ _ Huser) as [Hheap Hconvs].
  split; [rewrite <- Hheap; apply fresh_not_in_heap|].
  eexists. simpl. rewrite lookup_insert_eq. split; [done|]. simpl.
  split_and!; try done.
  revert Hrow. unfold queryConversation. rewrite Hfault.
  destruct (conversations_table (db s0) !! _) as [row|]; [done|].
  by intros (_ & -> & ->).
Qed.

Lemma GetConversation_cold_load_witness :
  ∃ conv s1,
    GetConversation calmEnv "alice" "" emptyStore = (inr conv, s1)
    ∧ ∃ c, heap s1 !! conv = Some c ∧ InUse c = 0%Z ∧ Dirty c = false.
Proof.
  destruct (GetConversation calmEnv "alice" "" emptyStore) as [[e|conv] s1] eqn:Hget.
  - exfalso. vm_compute in Hget. discriminate.
  - exists conv, s1. split; [reflexivity|].
    destruct (GetConversation_cold_load calmEnv "alice" "" emptyStore s1 conv)
      as (_ & c & Hc & Huse & Hdirty & _); [reflexivity | reflexivity | exact Hget |].
    exists c. split; [exact Hc|]. split; [exact Huse | exact Hdirty].
Defined.

(** X6.  The table is keyed by the user key and the session id joined by
    a bar, and by nothing else: two pairs with the same joined string
    share one conversation, the second call returning the pointer of
    the first. *)
Theorem GetConversation_shared_key `{JSON} (env1 env2 : Env)
    (userKey1 conversationID1 userKey2 conversationID2 : string)
    (s s1 : Store) (conv : ptr) :
  userKey1 +:+ "|" +:+ sessionID conversationID1
    = userKey2 +:+ "|" +:+ sessionID conversationID2 →
  GetConversation env1 userKey1 conversationID1 s = (inr conv, s1) →
  GetConversation env2 userKey2 conversationID2 s1 = (inr conv, s1).
Proof.
  intros Hkey Hget.
  assert (convs s1 !! (userKey1 +:+ "|" +:+ sessionID conversationID1) = Some conv) as Hin.
  { destruct (GetConversation_cases _ _ _ _ _ _ Hget)
      as [(conv0 & Hk & [= <-] & ->)|[(_ & e & ? & _)|(_ & Hnew)]]; [done | done |].
    destruct Hnew as (s0 & o & m & internalID & history & _ & _ & [= ->] & ->).
    simpl. by rewrite lookup_insert_eq. }
  rewrite Hkey in Hin. unfold GetConversation. fold (sessionID conversationID2).
  by rewrite Hin.
Qed.

Lemma GetConversation_shared_key_witness :
  ∃ conv s1,
    GetConversation calmEnv "a|b" "c" emptyStore = (inr conv, s1)
    ∧ GetConversation calmEnv "a" "b|c" s1 = (inr conv, s1).
Proof.
  destruct (GetConversation calmEnv "a|b" "c" emptyStore) as [[e|conv] s1] eqn:Hget.
  - exfalso. vm_compute in Hget. discriminate.
  - exists conv, s1. split; [reflexivity|].
    refine (GetConversation_shared_key calmEnv calmEnv "a|b" "c" "a" "b|c"
              emptyStore s1 conv _ Hget).
    reflexivity.
Defined.

Lemma joined_key_inj (u1 c1 u2 c2 : string) :
  Contains u1 "|" = false → Contains u2 "|" = false →
  u1 +:+ "|" +:+ c1 = u2 +:+ "|" +:+ c2 → u1 = u2 ∧ c1 = c2.
Proof.
  revert u2. induction u1 as [|a u1 IH]; intros [|b u2] H1 H2 Heq.
  - by simplify_eq/=.
  - rewrite append_cons in Heq. injection Heq as <- _.
    simpl in H2. by destruct u2.
  - rewrite append_cons in Heq. injection Heq as -> _.
    simpl in H1. by destruct u1.
  - rewrite !append_cons in Heq. injection Heq as -> Heq.
    assert (Contains u1 "|" = false ∧ Contains u2 "|" = false) as [H1' H2'].
    { simpl in H1, H2. by split; [apply orb_false_elim in H1 as [_ ?]
                                | apply orb_false_elim in H2 as [_ ?]]. }
    destruct (IH u2 H1' H2' Heq) as [-> ->]. done.
Qed.

(** X7.  Users whose keys hold no bar are kept apart: when the table is
    consistent and neither the user keys of the cached conversations
    nor the caller's contain a bar, the conversation [GetConversation]
    returns carries the caller's user key and session id. *)
Theorem GetConversation_separates_users `{JSON} (env : Env) (userKey conversationID : string)
    (s s1 : Store) (conv : ptr) :
  tableConsistent s → userKeysBarFree s → Contains userKey "|" = false →
  GetConversation env userKey conversationID s = (inr conv, s1) →
  ∃ c, heap s1 !! conv = Some c
       ∧ UserKey c = userKey ∧ ConversationID c = sessionID conversationID.
Proof.
  intros Hs Hbar Hu Hget.
  destruct (GetConversation_cases _ _ _ _ _ _ Hget)
    as [(conv0 & Hk & [= <-] & ->)|[(_ & e & ? & _)|(_ & Hnew)]]; [| done |].
  - destruct (Hs _ _ Hk) as (c & Hc & Hkc). exists c. split; [done|].
    unfold cacheKey in Hkc. symmetry in Hkc.
    by apply joined_key_inj in Hkc; [|by eapply Hbar|].
  - destruct Hnew as (s0 & o & m & internalID & history & _ & _ & [= ->] & ->).
    eexists. simpl. rewrite lookup_insert_eq. by split.
Qed.

Lemma GetConversation_separates_users_witness :
  ∃ conv s1,
    GetConversation calmEnv "alice" "s1" emptyStore = (inr conv, s1)
    ∧ ∃ c, heap s1 !! conv = Some c ∧ UserKey c = "alice" ∧ ConversationID c = "s1".
Proof.
  destruct (GetConversation calmEnv "alice" "s1" emptyStore) as [[e|conv] s1] eqn:Hget.
  - exfalso. vm_compute in Hget. discriminate.
  - exists conv, s1. split; [reflexivity|].
    refine (GetConversation_separates_users calmEnv "alice" "s1" emptyStore s1 conv
              _ _ _ Hget).
    + intros key p Hin. simpl in Hin. by rewrite lookup_empty in Hin.
    + intros p c Hin. simpl in Hin. by rewrite lookup_empty in Hin.
    + reflexivity.
Defined.

(** ** Eviction and reload *)

Section Reload.
Context `{JSON}.

Lemma persisted_row s conv c now j envs :
  heap s !! conv = Some c → marshalHistory (History c) = inr j →
  commits (default txOK (envs !! length (writeCh s))) →
  let s1 := persistConversation conv now s in
  conversations_table (fst (writeLoop envs (writeCh s1) (db s1)))
    !! (UserKey c, ConversationID c)
  = Some {| internal_conv_id := InternalID c; history_json := j; updated_at := Unix now |}.
Proof.
  intros Hc Hj (Hb & He & Hcm) s1.
  assert (writeCh s1 = writeCh s ++
    [{| fn := upsertConversation (UserKey c) (ConversationID c) (InternalID c) j (Unix now);
        done := false |}] ∧ db s1 = db s) as [-> ->].
  { unfold s1, persistConversation. by rewrite Hc, Hj. }
  rewrite writeLoop_app. simpl. rewrite hd_drop_lookup.
  unfold writeLoopBody. rewrite Hb, He, Hcm. simpl. by rewrite lookup_insert_eq.
Qed.

Lemma getOrCreateUser_conversations env userKey s r s1 :
  writeCh s = [] → getOrCreateUser env userKey s = (r, s1) →
  conversations_table (db s1) = conversations_table (db s).
Proof.
  intros Hq. unfold getOrCreateUser.
  destruct (users s !! userKey); [by intros [= <- <-]|].
  destruct (queryUser _ _ _) as [err|row]; [|by intros [= <- <-]].
  destruct (isErrNoRows err); simpl; [|by intros [= <- <-]].
  rewrite Hq. simpl. rewrite writeLoopBody_txError.
  set (d := match txError (hd txOK (workerEnvs env)) with
            | Some _ => db s
            | None => _
            end).
  assert (conversations_table d = conversations_table (db s)) as Hd.
  { unfold d. destruct (txError _); [done|]. simpl.
    by destruct (users_table (db s) !! userKey). }
  destruct (last _) as [[e|]|]; [by intros [= <- <-]| |];
    (simpl; destruct (queryUser (userRequeryFault env) _ _); by intros [= <- <-]).
Qed.

End Reload.

(** X8.  Eviction followed by a reload gives the conversation back.  An
    idle conversation is evicted; the worker goes through the channel
    and the transaction of the final persist commits; the next
    [GetConversation] for the pair then misses the table and, when it
    succeeds, returns a clean object that nobody uses, with the user key,
    the session id and the internal identifier of the evicted one and
    the history decoded from the JSON text that was written. *)
Theorem evict_then_reload `{JSON} (now : Time) (key : string) (conv : ptr)
    (c : Conversation) (s : Store) (tr : list Event) (envs : list TxEnv) (env : Env)
    (j : string) (conv' : ptr) (s3 : Store) :
  convs s !! key = Some conv → heap s !! conv = Some c →
  key = cacheKey c → ConversationID c ≠ "" → (InUse c ≤ 0)%Z →
  marshalHistory (History c) = inr j →
  commits (default txOK (envs !! length (writeCh s))) →
  convQueryFault env = None →
  GetConversation env (UserKey c) (ConversationID c)
    (runWorker envs (fst (evictEntry now key (s, tr)))) = (inr conv', s3) →
  convs (fst (evictEntry now key (s, tr))) !! key = None
  ∧ ∃ c', heap s3 !! conv' = Some c'
          ∧ UserKey c' = UserKey c ∧ ConversationID c' = ConversationID c
          ∧ InternalID c' = InternalID c ∧ History c' = unmarshalHistory j
          ∧ Dirty c' = false ∧ InUse c' = 0%Z.
Proof.
  intros Hkey Hc -> Hcid Hidle Hj Hcommit Hfault.
  assert (fst (evictEntry now (cacheKey c) (s, tr))
          = setConvs (delete (cacheKey c) (convs (persistConversation conv now s)))
              (persistConversation conv now s)) as ->.
  { unfold evictEntry. rewrite Hkey, Hc.
    by assert ((InUse c >? 0)%Z = false) as -> by lia. }
  set (s1 := persistConversation conv now s).
  intros Hget. split; [simpl; by rewrite lookup_delete_eq|].
  assert (sessionID (ConversationID c) = ConversationID c) as Hsid
    by (unfold sessionID; by rewrite bool_decide_eq_false_2).
  destruct (GetConversation_cases _ _ _ _ _ _ Hget)
    as [(conv0 & Hk & _)|[(_ & e & ? & _)|(_ & Hnew)]]; [| done |].
  { rewrite Hsid in Hk. simpl in Hk. fold (cacheKey c) in Hk.
    by rewrite lookup_delete_eq in Hk. }
  destruct Hnew as (s0 & o & m & internalID & history & Huser & Hrow & [= ->] & ->).
  apply getOrCreateUser_conversations in Huser as Hconv; [|done].
  revert Hrow. unfold queryConversation. rewrite Hfault, Hconv, Hsid. simpl.
  pose proof (persisted_row s conv c now j envs Hc Hj Hcommit) as Hrow. simpl in Hrow.
  fold s1 in Hrow. rewrite Hrow. intros [-> ->].
  eexists. rewrite lookup_insert_eq. by split_and!.
Qed.

Lemma evict_then_reload_witness :
  ∃ conv' s3,
    GetConversation calmEnv "bob" "s1" evictedStore = (inr conv', s3)
    ∧ ∃ c', heap s3 !! conv' = Some c'
            ∧ InternalID c' = InternalID bobConv ∧ History c' = History bobConv.
Proof.
  destruct (GetConversation calmEnv "bob" "s1" evictedStore) as [[e|conv'] s3] eqn:Hget.
  - exfalso. vm_compute in Hget. discriminate.
  - exists conv', s3. split; [reflexivity|].
    destruct (evict_then_reload tickTime "bob|s1" 7%nat bobConv bobStore []
                [txBusy; txOK] calmEnv
                ("[{" +:+ quoted "source" +:+ ":" +:+ quoted "user" +:+ ","
                   +:+ quoted "content" +:+ ":" +:+ quoted "hi" +:+ "},{"
                   +:+ quoted "source" +:+ ":" +:+ quoted "assistant" +:+ ","
                   +:+ quoted "content" +:+ ":" +:+ quoted "hello" +:+ "}]")
                conv' s3)
      as (_ & c' & Hc' & _ & _ & Hid & Hh & _);
      [reflexivity | reflexivity | reflexivity | done | done | reflexivity
      | by repeat split | reflexivity | exact Hget |].
    exists c'. split; [exact Hc'|]. split; [exact Hid|]. rewrite Hh. reflexivity.
Defined.

(** ** A tick of the cleanup loop when nothing else runs *)

Section QuietTick.
Context `{JSON}.

Lemma sameContent_refl s : sameContent s s.
Proof. done. Qed.

Lemma sameContent_trans s1 s2 s3 : sameContent s1 s2 → sameContent s2 s3 → sameContent s1 s3.
Proof. intros H12 H23 p. by rewrite H23, H12. Qed.

Lemma sameContent_unused s s' conv : sameContent s s' → unused s' conv = unused s conv.
Proof.
  intros Hs. specialize (Hs conv). unfold unused.
  destruct (heap s' !! conv) as [c'|], (heap s !! conv) as [c|]; simplify_eq/=; [|done].
  congruence.
Qed.

Lemma sameContent_evictable s s' now conv :
  sameContent s s' → evictable s' now conv = evictable s now conv.
Proof.
  intros Hs. specialize (Hs conv). unfold evictable.
  destruct (heap s' !! conv) as [c'|], (heap s !! conv) as [c|]; simplify_eq/=; [|done].
  congruence.
Qed.

(** What [persistConversation] does to a store. *)
Lemma persistConversation_effect conv now s c :
  heap s !! conv = Some c →
  let s' := persistConversation conv now s in
  sameContent s s' ∧ db s' = db s ∧ convs s' = convs s ∧ users s' = users s
  ∧ (∃ more, writeCh s' = writeCh s ++ more)
  ∧ persistedAt s' conv now c
  ∧ (∀ q c', q ≠ conv → heap s' !! q = Some c' → heap s !! q = Some c').
Proof.
  intros Hc s'.
  assert (heap s' = <[conv := markPersisted now c]> (heap s)
          ∧ db s' = db s ∧ convs s' = convs s ∧ users s' = users s
          ∧ writeCh s' = writeCh s ++
              match marshalHistory (History c) with
              | inr j => [persistRequest c now j]
              | inl _ => []
              end) as (Hheap & Hdb & Hconvs & Husers & Hq).
  { unfold s', persistConversation. rewrite Hc.
    destruct (marshalHistory (History c)); simpl; by rewrite ?app_nil_r. }
  split_and!; try done.
  - intros p. rewrite Hheap, lookup_insert. case_decide; [subst; by rewrite Hc | done].
  - by eexists.
  - split.
    + exists (markPersisted now c). by rewrite Hheap, lookup_insert_eq.
    + intros j Hj. rewrite Hq, Hj. set_solver.
  - intros q c' Hne. by rewrite Hheap, lookup_insert_ne.
Qed.

Lemma tickedFrom_refl s : tickedFrom s s.
Proof. split_and!; try done. exists []. by rewrite app_nil_r. Qed.

Lemma tickedFrom_trans s1 s2 s3 : tickedFrom s1 s2 → tickedFrom s2 s3 → tickedFrom s1 s3.
Proof.
  intros (Hc & Hd & Hu & m & Hq) (Hc' & Hd' & Hu' & m' & Hq'). split_and!.
  - by eapply sameContent_trans.
  - congruence.
  - congruence.
  - exists (m ++ m'). by rewrite Hq', Hq, app_assoc.
Qed.

Lemma persistedAt_content s conv now c c0 :
  contentOf c = contentOf c0 → persistedAt s conv now c → persistedAt s conv now c0.
Proof.
  unfold contentOf. intros [= Hu Hcid _ _ Hi _ Hh _] [Hobj Hreq]. split; [done|].
  intros j Hj. rewrite <- Hh in Hj. specialize (Hreq j Hj).
  unfold persistRequest in *. by rewrite <- Hu, <- Hcid, <- Hi.
Qed.

Lemma persistedAt_persist s conv now c q cq :
  heap s !! q = Some cq →
  persistedAt s conv now c → persistedAt (persistConversation q now s) conv now c.
Proof.
  intros Hq [(c' & Hc' & Hd & Hl) Hreq].
  destruct (persistConversation_effect q now s cq Hq)
    as (_ & _ & _ & _ & [more Hmore] & [Hobj _] & Hother).
  split.
  - destruct (decide (conv = q)) as [->|Hne]; [done|].
    exists c'. split; [|done].
    unfold persistConversation. rewrite Hq.
    destruct (marshalHistory (History cq)); simpl; by rewrite lookup_insert_ne.
  - intros j Hj. rewrite Hmore. apply elem_of_app. left. by apply Hreq.
Qed.

Lemma persistedAt_setConvs s m conv now c :
  persistedAt s conv now c → persistedAt (setConvs m s) conv now c.
Proof. done. Qed.

(** The first pass when nothing else runs. *)
Lemma scanLoop_quiet now i entries s keys tr :
  let '(s', keys', tr') := scanLoop quiet now i entries (s, keys, tr) in
  tickedFrom s s' ∧ convs s' = convs s
  ∧ keys' = keys ++ (filter (λ e, evictable s now e.2 = true) entries).*1
  ∧ ∀ conv c, persistedAt s conv now c → persistedAt s' conv now c.
Proof.
  revert i s keys tr. induction entries as [|[key conv] entries IH]; intros i s keys tr.
  { simpl. rewrite app_nil_r. split_and!; try done. apply tickedFrom_refl. }
  cbn [scanLoop]. unfold quiet at 2.
  assert (∃ s1 tr1,
    scanEntry now (key, conv) (s, keys, tr)
    = (s1, keys ++ (if evictable s now conv then [key] else []), tr1)
    ∧ tickedFrom s s1 ∧ convs s1 = convs s
    ∧ ∀ p c, persistedAt s p now c → persistedAt s1 p now c)
    as (s1 & tr1 & -> & Hs1 & Hconvs1 & Hp1).
  { unfold scanEntry, evictable.
    destruct (heap s !! conv) as [c|] eqn:Hc.
    2:{ eexists _, _. rewrite app_nil_r. split_and!; try done. apply tickedFrom_refl. }
    destruct (InUse c >? 0)%Z; simpl.
    { eexists _, _. rewrite app_nil_r. split_and!; try done. apply tickedFrom_refl. }
    destruct (persistConversation_effect conv now s c Hc)
      as (Hsame & Hdb & Hcv & Hus & Hmore & _ & _).
    destruct (Dirty c && (now - LastPersist c >=? persistAfter)%Z).
    - eexists _, _. split; [|split_and!].
      + by destruct (now - LastActive c >=? evictAfter)%Z; rewrite ?app_nil_r.
      + by split_and!.
      + done.
      + intros p c0. by apply persistedAt_persist with c.
    - eexists _, _. split; [|split_and!].
      + by destruct (now - LastActive c >=? evictAfter)%Z; rewrite ?app_nil_r.
      + apply tickedFrom_refl.
      + done.
      + done. }
  specialize (IH (S i) s1 (keys ++ (if evictable s now conv then [key] else [])) tr1).
  destruct (scanLoop quiet now (S i) entries _) as [[s' keys'] tr'].
  destruct IH as (Hs' & Hconvs' & Hkeys' & Hp'). split_and!.
  - by eapply tickedFrom_trans.
  - congruence.
  - rewrite Hkeys', <- app_assoc. f_equal.
    rewrite filter_cons. simpl.
    assert (filter (λ e : string * ptr, evictable s1 now e.2 = true) entries
            = filter (λ e : string * ptr, evictable s now e.2 = true) entries) as ->.
    { apply list_filter_iff. intros [k p]. simpl.
      by rewrite (sameContent_evictable s s1) by apply Hs1. }
    destruct (evictable s now conv); [by case_decide | by case_decide].
  - intros p c Hp. by apply Hp', Hp1.
Qed.

Lemma evictEntry_quiet now key s tr :
  ∃ s1 tr1, evictEntry now key (s, tr) = (s1, tr1)
  ∧ tickedFrom s s1
  ∧ (∀ k, convs s1 !! k =
          match convs s !! k with
          | Some p => if bool_decide (k = key) && unused s p then None else Some p
          | None => None
          end)
  ∧ (∀ p c, persistedAt s p now c → persistedAt s1 p now c)
  ∧ (∀ p c, convs s !! key = Some p → heap s !! p = Some c → unused s p = true →
            persistedAt s1 p now c).
Proof.
  assert (∀ k, convs s !! k =
    match convs s !! k with
    | Some p => if bool_decide (k = key) && false then None else Some p
    | None => None
    end) as Hkeep.
  { intros k. destruct (convs s !! k); [|done]. by rewrite andb_false_r. }
  unfold evictEntry.
  destruct (convs s !! key) as [conv|] eqn:Hconv.
  2:{ eexists _, _. split; [done|]. split_and!; try done.
      - apply tickedFrom_refl.
      - intros k. destruct (convs s !! k) as [p|] eqn:Hk; [|done].
        by rewrite bool_decide_eq_false_2 by congruence. }
  destruct (heap s !! conv) as [c|] eqn:Hc.
  2:{ eexists _, _. split; [done|]. split_and!; try done.
      - apply tickedFrom_refl.
      - intros k. destruct (convs s !! k) as [p|] eqn:Hk; [|done].
        case_bool_decide; [|done]. simplify_eq. unfold unused. by rewrite Hc.
      - intros p c0 [= <-]. by rewrite Hc. }
  destruct (InUse c >? 0)%Z eqn:Huse.
  { eexists _, _. split; [done|]. split_and!; try done.
    - apply tickedFrom_refl.
    - intros k. destruct (convs s !! k) as [p|] eqn:Hk; [|done].
      case_bool_decide; [|done]. simplify_eq. unfold unused. by rewrite Hc, Huse.
    - intros p c0 [= <-]. unfold unused. by rewrite Hc, Huse. }
  destruct (persistConversation_effect conv now s c Hc)
    as (Hsame & Hdb & Hcv & Hus & Hmore & Hpers & _).
  eexists _, _. split; [done|]. split_and!.
  - by split_and!.
  - intros k. simpl. rewrite Hcv.
    destruct (decide (k = key)) as [->|Hne].
    + rewrite lookup_delete_eq, Hconv. unfold unused.
      by rewrite Hc, Huse, bool_decide_eq_true_2.
    + rewrite lookup_delete_ne by done. destruct (convs s !! k); [|done].
      by rewrite bool_decide_eq_false_2.
  - intros p c0 Hp. apply persistedAt_setConvs. by apply persistedAt_persist with c.
  - intros p c0 [= <-] Hc0 _. apply persistedAt_setConvs. by simplify_eq.
Qed.

(** The second pass when nothing else runs. *)
Lemma evictLoop_quiet now i keys s tr :
  let '(s', tr') := evictLoop quiet now i keys (s, tr) in
  tickedFrom s s'
  ∧ (∀ k, convs s' !! k =
          match convs s !! k with
          | Some p => if bool_decide (k ∈ keys) && unused s p then None else Some p
          | None => None
          end)
  ∧ (∀ p c, persistedAt s p now c → persistedAt s' p now c)
  ∧ (∀ k p c, k ∈ keys → convs s !! k = Some p → heap s !! p = Some c →
              unused s p = true → persistedAt s' p now c).
Proof.
  revert i s tr. induction keys as [|key keys IH]; intros i s tr.
  { simpl. split_and!; try done.
    - apply tickedFrom_refl.
    - intros k. by destruct (convs s !! k).
    - intros k p c Hk. by apply elem_of_nil in Hk. }
  cbn [evictLoop]. unfold quiet at 2.
  destruct (evictEntry_quiet now key s tr) as (s1 & tr1 & -> & Hs1 & Hf1 & Hp1 & Hk1).
  specialize (IH (S i) s1 tr1).
  destruct (evictLoop quiet now (S i) keys (s1, tr1)) as [s' tr'].
  destruct IH as (Hs' & Hf' & Hp' & Hk').
  assert (∀ p, unused s1 p = unused s p) as Hun.
  { intros p. apply sameContent_unused, Hs1. }
  split_and!.
  - by eapply tickedFrom_trans.
  - intros k. rewrite Hf', Hf1. destruct (convs s !! k) as [p|]; [|done].
    destruct (decide (k = key)) as [->|Hne].
    + rewrite (bool_decide_eq_true_2 (key = key)) by done.
      rewrite (bool_decide_eq_true_2 (key ∈ key :: keys)) by set_solver. simpl.
      destruct (unused s p) eqn:Hu; [done|]. by rewrite Hun, Hu, andb_false_r.
    + rewrite bool_decide_eq_false_2 by done. simpl. rewrite Hun.
      by rewrite (bool_decide_ext (k ∈ key :: keys) (k ∈ keys))
        by (rewrite elem_of_cons; split; [by intros [?|?] | by right]).
  - intros p c Hp. by apply Hp', Hp1.
  - intros k p c Hk Hconv Hc Hu.
    destruct (decide (k = key)) as [->|Hne].
    { apply Hp'. by apply Hk1. }
    assert (k ∈ keys) as Hin by (by apply elem_of_cons in Hk as [?|?]).
    assert (convs s1 !! k = Some p) as Hconv1.
    { by rewrite Hf1, Hconv, bool_decide_eq_false_2. }
    destruct Hs1 as (Hsame & _). specialize (Hsame p). rewrite Hc in Hsame.
    destruct (heap s1 !! p) as [c1|] eqn:Hc1; [|done].
    apply persistedAt_content with c1; [simpl in Hsame; congruence|].
    apply (Hk' k); try done. by rewrite Hun.
Qed.

Lemma persistConversation_heap_ne conv now s q :
  q ≠ conv → heap (persistConversation conv now s) !! q = heap s !! q.
Proof.
  intros Hne. unfold persistConversation.
  destruct (heap s !! conv) as [c|]; [|done].
  destruct (marshalHistory (History c)); simpl; by rewrite lookup_insert_ne.
Qed.

Lemma scanEntry_quiet_heap now key conv s keys tr :
  (∀ p, heap (scanEntry now (key, conv) (s, keys, tr)).1.1 !! p = heap s !! p
        ∨ p = conv ∧ due s now conv = true)
  ∧ (∀ c, heap s !! conv = Some c → due s now conv = true →
          persistedAt (scanEntry now (key, conv) (s, keys, tr)).1.1 conv now c).
Proof.
  unfold scanEntry, due.
  destruct (heap s !! conv) as [c|] eqn:Hc; [|by split; [left|]].
  destruct (InUse c >? 0)%Z; simpl; [by split; [left|]|].
  destruct (Dirty c && (now - LastPersist c >=? persistAfter)%Z); simpl;
    [|by split; [left|]].
  split.
  - intros p. destruct (decide (p = conv)) as [->|Hne]; [by right|left].
    by apply persistConversation_heap_ne.
  - intros c0 [= <-] _. by apply persistConversation_effect.
Qed.

Lemma scanLoop_quiet_heap now i entries s keys tr p :
  heap (scanLoop quiet now i entries (s, keys, tr)).1.1 !! p = heap s !! p
  ∨ ∃ key, (key, p) ∈ entries ∧ due s now p = true.
Proof.
  revert i s keys tr. induction entries as [|[key conv] entries IH]; intros i s keys tr.
  { by left. }
  cbn [scanLoop]. unfold quiet at 2.
  destruct (scanEntry_quiet_heap now key conv s keys tr) as [Hh _]. specialize (Hh p).
  destruct (scanEntry now (key, conv) (s, keys, tr)) as [[s1 keys1] tr1]. simpl in Hh.
  destruct (IH (S i) s1 keys1 tr1) as [->|(k & Hk & Hdue)].
  - destruct Hh as [->|[-> Hdue]]; [by left|]. right. exists key. split; [set_solver|done].
  - right. destruct Hh as [Hh|[-> Hdue']].
    + exists k. split; [set_solver|]. unfold due in *. by rewrite <- Hh.
    + exists key. split; [set_solver|done].
Qed.

Lemma scanLoop_quiet_due now i entries s keys tr key p c :
  (key, p) ∈ entries → heap s !! p = Some c → due s now p = true →
  persistedAt (scanLoop quiet now i entries (s, keys, tr)).1.1 p now c.
Proof.
  revert i s keys tr. induction entries as [|[key0 conv] entries IH];
    intros i s keys tr Hin Hc Hdue.
  { by apply elem_of_nil in Hin. }
  cbn [scanLoop]. unfold quiet at 2.
  destruct (scanEntry_quiet_heap now key0 conv s keys tr) as [Hh Hp].
  specialize (Hh p).
  destruct (scanEntry now (key0, conv) (s, keys, tr)) as [[s1 keys1] tr1] eqn:Hstep.
  simpl in Hh, Hp.
  assert (persistedAt s1 p now c → persistedAt
    (scanLoop quiet now (S i) entries (s1, keys1, tr1)).1.1 p now c) as Hstable.
  { pose proof (scanLoop_quiet now (S i) entries s1 keys1 tr1) as Hq.
    destruct (scanLoop quiet now (S i) entries (s1, keys1, tr1)) as [[s' keys'] tr'].
    destruct Hq as (_ & _ & _ & Hq). apply Hq. }
  destruct Hh as [Hh|[-> _]].
  - apply elem_of_cons in Hin as [[= -> ->]|Hin].
    { apply Hstable. by apply Hp. }
    apply (IH (S i) s1 keys1 tr1 Hin).
    + by rewrite Hh.
    + unfold due in *. by rewrite Hh.
  - apply Hstable. by apply Hp.
Qed.

Lemma evictEntry_quiet_heap now key s tr p :
  heap (evictEntry now key (s, tr)).1 !! p = heap s !! p
  ∨ convs s !! key = Some p ∧ unused s p = true.
Proof.
  unfold evictEntry, unused.
  destruct (convs s !! key) as [conv|] eqn:Hconv; [|by left].
  destruct (heap s !! conv) as [c|] eqn:Hc; [|by left].
  destruct (InUse c >? 0)%Z eqn:Huse; [by left|]. simpl.
  destruct (decide (p = conv)) as [->|Hne].
  - right. by rewrite Hc, Huse.
  - left. by apply persistConversation_heap_ne.
Qed.

Lemma evictLoop_quiet_heap now i keys s tr p :
  heap (evictLoop quiet now i keys (s, tr)).1 !! p = heap s !! p
  ∨ ∃ key, key ∈ keys ∧ convs s !! key = Some p ∧ unused s p = true.
Proof.
  revert i s tr. induction keys as [|key keys IH]; intros i s tr.
  { by left. }
  cbn [evictLoop]. unfold quiet at 2.
  destruct (evictEntry_quiet_heap now key s tr p) as [Hh|[Hconv Hun]].
  2:{ right. exists key. split; [set_solver|done]. }
  destruct (evictEntry_quiet now key s tr) as (s1 & tr1 & Hstep & Hs1 & Hf1 & _).
  rewrite Hstep in *. simpl in Hh.
  destruct (IH (S i) s1 tr1) as [->|(k & Hk & Hconv & Hun)]; [by left|].
  right. exists k. split; [set_solver|]. split.
  - specialize (Hf1 k). rewrite Hconv in Hf1.
    destruct (convs s !! k) as [q|]; [|done].
    by destruct (bool_decide (k = key) && unused s q).
  - rewrite <- Hun. symmetry. apply sameContent_unused, Hs1.
Qed.

(** X9. A cleanup tick that runs alone does exactly this: it drops from
    the table the entries whose conversation is free and idle for
    [evictAfter], and no other; it rewrites only conversations of the
    table that are free and due or idle, and those it leaves clean,
    stamped [now] and with their history queued for writing; it changes
    no conversation's identity, history, counter or activity time; it
    leaves the database and the users cache alone and only appends to the
    write queue. *)
Theorem cleanupTick_quiet_exact now s :
  (∀ key, convs (tickStore now s) !! key =
     match convs s !! key with
     | Some p => if evictable s now p then None else Some p
     | None => None
     end)
  ∧ (∀ p, heap (tickStore now s) !! p = heap s !! p
          ∨ ∃ key, convs s !! key = Some p
                   ∧ (due s now p = true ∨ evictable s now p = true))
  ∧ (∀ key p c, convs s !! key = Some p → heap s !! p = Some c →
        due s now p = true ∨ evictable s now p = true →
        persistedAt (tickStore now s) p now c)
  ∧ sameContent s (tickStore now s)
  ∧ db (tickStore now s) = db s
  ∧ users (tickStore now s) = users s
  ∧ ∃ more, writeCh (tickStore now s) = writeCh s ++ more.
Proof.
  unfold tickStore, cleanupTick, cleanupTickOver.
  set (entries := map_to_list (convs s)).
  pose proof (scanLoop_quiet now 0 entries s [] []) as Hscan.
  pose proof (scanLoop_quiet_heap now 0 entries s [] []) as Hscanh.
  pose proof (λ key p c, scanLoop_quiet_due now 0 entries s [] [] key p c) as Hscand.
  destruct (scanLoop quiet now 0 entries (s, [], [])) as [[s1 keys] tr1].
  simpl in Hscanh, Hscand.
  destruct Hscan as (Hs1 & Hconvs1 & Hkeys & Hp1). simpl in Hkeys.
  assert (match keys with
          | [] => (s1, tr1)
          | _ :: _ => evictLoop quiet now (length entries) keys (s1, tr1)
          end = evictLoop quiet now (length entries) keys (s1, tr1)) as ->.
  { by destruct keys. }
  pose proof (evictLoop_quiet now (length entries) keys s1 tr1) as Hev.
  pose proof (evictLoop_quiet_heap now (length entries) keys s1 tr1) as Hevh.
  destruct (evictLoop quiet now (length entries) keys (s1, tr1)) as [s2 tr2].
  simpl in Hevh |- *.
  destruct Hev as (Hs2 & Hf2 & Hp2 & Hk2).
  assert (∀ k p, convs s !! k = Some p → k ∈ keys ↔ evictable s now p = true) as Hin.
  { intros k p Hk. rewrite Hkeys, list_elem_of_fmap. split.
    - intros ([k' p'] & -> & He). apply list_elem_of_filter in He as [He Hmem].
      apply elem_of_map_to_list in Hmem. simpl in *. by simplify_eq.
    - intros He. exists (k, p). split; [done|]. apply list_elem_of_filter.
      split; [done|]. by apply elem_of_map_to_list. }
  assert (∀ p, evictable s now p = true → unused s p = true) as Hunused.
  { intros p. unfold evictable, unused. destruct (heap s !! p); [|done].
    by intros [? _]%andb_true_iff. }
  assert (∀ p, unused s1 p = unused s p) as Hun1.
  { intros p. apply sameContent_unused, Hs1. }
  destruct (tickedFrom_trans _ _ _ Hs1 Hs2) as (Hsame & Hdb & Husers & Hqueue).
  split_and!; try done.
  - intros key. rewrite Hf2, Hconvs1.
    destruct (convs s !! key) as [p|] eqn:Hkey; [|done].
    rewrite Hun1. destruct (evictable s now p) eqn:He.
    + rewrite bool_decide_eq_true_2 by (by apply (Hin key p)).
      by rewrite Hunused.
    + rewrite bool_decide_eq_false_2; [done|]. rewrite (Hin key p) by done. congruence.
  - intros p. destruct (Hevh p) as [->|(k & Hk & Hconv & Hu)].
    + destruct (Hscanh p) as [->|(k & Hk & Hdue)]; [by left|].
      right. exists k. split; [by apply elem_of_map_to_list|by left].
    + right. exists k. rewrite Hconvs1 in Hconv. split; [done|].
      right. by apply (Hin k p).
  - intros key p c Hkey Hc [Hdue|He].
    + apply Hp2. apply (Hscand key); [by apply elem_of_map_to_list|done..].
    + destruct Hs1 as (Hsame1 & _). specialize (Hsame1 p). rewrite Hc in Hsame1.
      destruct (heap s1 !! p) as [c1|] eqn:Hc1; [|done].
      apply persistedAt_content with c1; [simpl in Hsame1; congruence|].
      apply (Hk2 key); try done.
      * by apply (Hin key p).
      * congruence.
      * rewrite Hun1. by apply Hunused.
Qed.

End QuietTick.

(** ** The cleanup loop, step by step *)

Section TickRun.
Context `{JSON}.
Variable others : nat → Store → Store.
Variable now : Time.

Lemma scanLoop_app i l1 l2 st :
  scanLoop others now i (l1 ++ l2) st
  = scanLoop others now (i + length l1) l2 (scanLoop others now i l1 st).
Proof.
  revert i st. induction l1 as [|entry l1 IH]; intros i [[s keys] tr].
  { simpl. by rewrite Nat.add_0_r. }
  cbn [scanLoop app].
  rewrite IH. simpl. by rewrite Nat.add_succ_r.
Qed.

Lemma evictLoop_app i l1 l2 st :
  evictLoop others now i (l1 ++ l2) st
  = evictLoop others now (i + length l1) l2 (evictLoop others now i l1 st).
Proof.
  revert i st. induction l1 as [|key l1 IH]; intros i [s tr].
  { simpl. by rewrite Nat.add_0_r. }
  cbn [evictLoop app].
  rewrite IH. simpl. by rewrite Nat.add_succ_r.
Qed.

Variable entries : list (string * ptr).
Variable s : Store.

(** The first pass is the sequence of its steps, each on the store the
    rest of the program left. *)
Lemma scanState_S n entry :
  entries !! n = Some entry →
  scanState others now entries s (S n)
  = scanEntry now entry (scanView others now entries s n,
                         (scanState others now entries s n).1.2,
                         (scanState others now entries s n).2).
Proof.
  intros Hn. unfold scanView, scanState.
  rewrite (take_S_r _ _ _ Hn), scanLoop_app.
  rewrite length_take_le by (apply lookup_lt_Some in Hn; lia).
  by destruct (scanLoop others now 0 (take n entries) (s, [], [])) as [[sn keys] tr].
Qed.

(** So is the second pass. *)
Lemma evictState_S m key :
  marked others now entries s !! m = Some key →
  evictState others now entries s (S m)
  = evictEntry now key (evictView others now entries s m,
                        (evictState others now entries s m).2).
Proof.
  unfold evictView, evictState, marked.
  destruct (scanState others now entries s (length entries)) as [[s1 keys] tr1].
  simpl. intros Hm.
  rewrite (take_S_r _ _ _ Hm), evictLoop_app.
  rewrite length_take_le by (apply lookup_lt_Some in Hm; lia).
  by destruct (evictLoop others now (length entries) (take m keys) (s1, tr1)) as [sm tr].
Qed.

(** The tick ends in the state after the last step of the second
    pass. *)
Lemma cleanupTickOver_evictState :
  cleanupTickOver others now entries s
  = evictState others now entries s (length (marked others now entries s)).
Proof.
  unfold cleanupTickOver, evictState, marked, scanState.
  rewrite firstn_all.
  destruct (scanLoop others now 0 entries (s, [], [])) as [[s1 keys] tr1].
  simpl. rewrite firstn_all. by destruct keys.
Qed.

(** What one step of the first pass does. *)
Lemma scanEntry_step key conv v keys tr :
  convs (scanEntry now (key, conv) (v, keys, tr)).1.1 = convs v
  ∧ ((scanEntry now (key, conv) (v, keys, tr)).1.2 = keys
     ∨ (scanEntry now (key, conv) (v, keys, tr)).1.2 = keys ++ [key]
       ∧ ∃ c, heap v !! conv = Some c ∧ (InUse c ≤ 0)%Z
              ∧ (evictAfter ≤ now - LastActive c)%Z)
  ∧ (∀ c, heap v !! conv = Some c → (0 < InUse c)%Z →
          (scanEntry now (key, conv) (v, keys, tr)).1.1 = v
          ∧ (scanEntry now (key, conv) (v, keys, tr)).1.2 = keys).
Proof.
  unfold scanEntry.
  destruct (heap v !! conv) as [c|] eqn:Hc; [|by split_and!; [|left|]].
  destruct (InUse c >? 0)%Z eqn:Huse; [by split_and!; [|left|]|].
  assert (convs (persistConversation conv now v) = convs v) as Hconvs.
  { by destruct (persistConversation_effect conv now v c Hc) as (_ & _ & ? & _). }
  destruct (Dirty c && (now - LastPersist c >=? persistAfter)%Z);
    destruct (now - LastActive c >=? evictAfter)%Z eqn:Hidle; simpl;
    (split_and!; [done | | intros c0 [= <-] Hpos; lia]);
    try (by left); right; (split; [done|]); exists c; split_and!; try done; lia.
Qed.

(** What one step of the second pass does. *)
Lemma evictEntry_step key v tr :
  (∀ conv c, convs v !! key = Some conv → heap v !! conv = Some c → (0 < InUse c)%Z →
             (evictEntry now key (v, tr)).1 = v)
  ∧ (∀ k, k ≠ key → convs (evictEntry now key (v, tr)).1 !! k = convs v !! k)
  ∧ ((evictEntry now key (v, tr)).1 = v
     ∨ ∃ conv c, convs v !! key = Some conv ∧ heap v !! conv = Some c ∧ (InUse c ≤ 0)%Z
                 ∧ (evictEntry now key (v, tr)).1
                   = setConvs (delete key (convs v)) (persistConversation conv now v)).
Proof.
  unfold evictEntry.
  destruct (convs v !! key) as [conv|] eqn:Hconv; [|by split_and!; [| |left]].
  destruct (heap v !! conv) as [c|] eqn:Hc; [|by split_and!; [| |left]].
  destruct (InUse c >? 0)%Z eqn:Huse; [by split_and!; [| |left]|]. simpl.
  assert (convs (persistConversation conv now v) = convs v) as Hconvs.
  { by destruct (persistConversation_effect conv now v c Hc) as (_ & _ & ? & _). }
  split_and!.
  - intros conv0 c0 [= <-]. rewrite Hc. intros [= <-]. lia.
  - intros k Hk. by rewrite lookup_delete_ne, Hconvs.
  - right. exists conv, c. rewrite Hconvs. split_and!; try done. lia.
Qed.

(** What [persistConversation] does to the conversation and the queue,
    whatever the dirty flag says. *)
Lemma persistConversation_queued conv v c :
  heap v !! conv = Some c →
  heap (persistConversation conv now v) !! conv = Some (markPersisted now c)
  ∧ ∀ j, marshalHistory (History c) = inr j →
         writeCh (persistConversation conv now v) = writeCh v ++ [persistRequest c now j].
Proof.
  intros Hc. unfold persistConversation. rewrite Hc.
  destruct (marshalHistory (History c)) as [e|j]; simpl; rewrite lookup_insert_eq.
  - by split.
  - split; [done|]. by intros ? [= <-].
Qed.

Lemma scanState_O : scanState others now entries s 0 = (s, [], []).
Proof. done. Qed.

Lemma scanState_stop n :
  entries !! n = None →
  scanState others now entries s (S n) = scanState others now entries s n.
Proof.
  intros Hn%lookup_ge_None. unfold scanState. by rewrite !take_ge by lia.
Qed.

Lemma evictState_stop m :
  marked others now entries s !! m = None →
  evictState others now entries s (S m) = evictState others now entries s m.
Proof.
  unfold evictState, marked.
  destruct (scanState others now entries s (length entries)) as [[s1 keys] tr1].
  simpl. intros Hm%lookup_ge_None. by rewrite !take_ge by lia.
Qed.

(** A key is marked by a step that found its conversation free and
    idle. *)
Lemma marked_scanned n key :
  key ∈ (scanState others now entries s n).1.2 →
  ∃ n' conv0 c0,
    (n' < n)%nat ∧ entries !! n' = Some (key, conv0)
    ∧ heap (scanView others now entries s n') !! conv0 = Some c0
    ∧ (InUse c0 ≤ 0)%Z ∧ (evictAfter ≤ now - LastActive c0)%Z.
Proof.
  induction n as [|n IH].
  { rewrite scanState_O. simpl. by intros ?%elem_of_nil. }
  destruct (entries !! n) as [[key' conv']|] eqn:Hn.
  2:{ rewrite (scanState_stop n Hn). intros Hkey.
      destruct (IH Hkey) as (n' & conv0 & c0 & ? & ?). exists n', conv0, c0.
      split; [lia | done]. }
  rewrite (scanState_S n _ Hn).
  destruct (scanEntry_step key' conv' (scanView others now entries s n)
              (scanState others now entries s n).1.2
              (scanState others now entries s n).2) as (_ & [->|[-> Hidle]] & _).
  - intros Hkey. destruct (IH Hkey) as (n' & conv0 & c0 & ? & ?).
    exists n', conv0, c0. split; [lia | done].
  - intros [Hkey| ->%list_elem_of_singleton]%elem_of_app.
    + destruct (IH Hkey) as (n' & conv0 & c0 & ? & ?).
      exists n', conv0, c0. split; [lia | done].
    + destruct Hidle as (c & ? & ? & ?). exists n, conv', c. split; [lia | done].
Qed.

(** The marked keys are keys of the entries, in their order. *)
Lemma marked_sublist n :
  (scanState others now entries s n).1.2 `sublist_of` (take n entries).*1.
Proof.
  induction n as [|n IH]; [done|].
  destruct (entries !! n) as [[key' conv']|] eqn:Hn.
  2:{ rewrite (scanState_stop n Hn).
      apply lookup_ge_None in Hn. rewrite take_ge in IH |- * by lia. done. }
  rewrite (scanState_S n _ Hn), (take_S_r _ _ _ Hn), fmap_app.
  destruct (scanEntry_step key' conv' (scanView others now entries s n)
              (scanState others now entries s n).1.2
              (scanState others now entries s n).2) as (_ & [->|[-> _]] & _).
  - by apply sublist_inserts_r.
  - by apply sublist_app.
Qed.

Lemma marked_NoDup : NoDup entries.*1 → NoDup (marked others now entries s).
Proof.
  intros Hnd. unfold marked.
  pose proof (marked_sublist (length entries)) as Hsub. rewrite firstn_all in Hsub.
  by eapply sublist_NoDup.
Qed.

Lemma evictState_O :
  (evictState others now entries s 0).1
  = (scanState others now entries s (length entries)).1.1.
Proof.
  unfold evictState.
  by destruct (scanState others now entries s (length entries)) as [[s1 keys] tr1].
Qed.

Section Kept.
Hypothesis others_keep : tableKept others.

Lemma scanState_kept n key conv :
  convs s !! key = Some conv →
  convs (scanState others now entries s n).1.1 !! key = Some conv.
Proof.
  intros Hkey. induction n as [|n IH]; [done|].
  destruct (entries !! n) as [[key' conv']|] eqn:Hn.
  2:{ by rewrite (scanState_stop n Hn). }
  rewrite (scanState_S n _ Hn).
  destruct (scanEntry_step key' conv' (scanView others now entries s n)
              (scanState others now entries s n).1.2
              (scanState others now entries s n).2) as (-> & _).
  by apply others_keep.
Qed.

Lemma evictState_kept m key conv :
  convs s !! key = Some conv →
  key ∉ take m (marked others now entries s) →
  convs (evictState others now entries s m).1 !! key = Some conv.
Proof.
  intros Hkey. induction m as [|m IH].
  { intros _. rewrite evictState_O. by apply scanState_kept. }
  destruct (marked others now entries s !! m) as [key'|] eqn:Hm.
  2:{ rewrite (evictState_stop m Hm). apply lookup_ge_None in Hm.
      rewrite !take_ge in IH |- * by lia. done. }
  rewrite (take_S_r _ _ _ Hm), (evictState_S m _ Hm).
  intros Hnot. apply not_elem_of_app in Hnot as [Hnot Hne].
  rewrite list_elem_of_singleton in Hne.
  destruct (evictEntry_step key' (evictView others now entries s m)
              (evictState others now entries s m).2) as (_ & Hother & _).
  rewrite Hother by done. apply others_keep. by apply IH.
Qed.

End Kept.

Section NonNegative.
Hypothesis others_nonneg : ∀ i st, countersNonNegative st → countersNonNegative (others i st).
Hypothesis s_nonneg : countersNonNegative s.

Lemma scanState_invariant n :
  tickInvariant (scanState others now entries s n).1.1
                (scanState others now entries s n).1.2
                (scanState others now entries s n).2.
Proof.
  assert (tickInvariant s [] []) as Hinv.
  { split_and!; [done | | |]; [by intros ? | by intros ? | by intros ? ?%elem_of_nil]. }
  apply (scanLoop_invariant others others_nonneg now (take n entries) 0) in Hinv.
  unfold scanState.
  by destruct (scanLoop others now 0 (take n entries) (s, [], [])) as [[sn keys] tr].
Qed.

Lemma scanView_nonneg n : countersNonNegative (scanView others now entries s n).
Proof. apply others_nonneg. by destruct (scanState_invariant n) as (? & _). Qed.

Lemma evictView_nonneg m : countersNonNegative (evictView others now entries s m).
Proof.
  apply others_nonneg. unfold evictState.
  pose proof (scanState_invariant (length entries)) as Hinv.
  destruct (scanState others now entries s (length entries)) as [[s1 keys] tr1].
  simpl in Hinv.
  apply (evictLoop_invariant others others_nonneg now (take m keys) (length entries))
    in Hinv.
  - destruct (evictLoop others now (length entries) (take m keys) (s1, tr1)) as [sm tr].
    by destruct Hinv as (? & _).
  - intros key (i & Hi & _)%elem_of_take. by eapply list_elem_of_lookup_2.
Qed.

End NonNegative.

End TickRun.

Section TickClaim.
Context `{JSON}.
Variable others : nat → Store → Store.
Variable now : Time.
Variable entries : list (string * ptr).
Variable s : Store.

Local Abbreviation scanned := (scanState others now entries s).
Local Abbreviation scanSees := (scanView others now entries s).
Local Abbreviation evicted := (evictState others now entries s).
Local Abbreviation evictSees := (evictView others now entries s).


End TickClaim.

Lemma twoEntries_table : twoEntries ≡ₚ map_to_list (convs twoStore).
Proof. vm_compute. first [reflexivity | apply perm_swap]. Defined.


(** ** Resolving the same pair twice *)

(** C8.  When [GetConversation] has returned a conversation for a pair
    of user key and session id, that conversation is the entry of the
    pair in the table the call leaves.  If the pair was in the table the
    call returned its entry and changed nothing; if it was not, the
    conversation is a new object of the heap, made for the pair, and its
    entry is what the call added to the table.  The conversation is an
    object of the heap whenever the entries of the table were.  The
    next call for the same pair, on the store as the first call left it,
    finds that entry: it returns the same pointer and leaves the store,
    and so the object, as it is. *)
Theorem C8_get_conversation_twice `{JSON} (env1 env2 : Env) (userKey conversationID : string)
    (s s1 : Store) (conv : ptr) :
  GetConversation env1 userKey conversationID s = (inr conv, s1) →
  convs s1 !! (userKey +:+ "|" +:+ sessionID conversationID) = Some conv
  ∧ (∀ conv0, convs s !! (userKey +:+ "|" +:+ sessionID conversationID) = Some conv0 →
              conv = conv0 ∧ s1 = s)
  ∧ (convs s !! (userKey +:+ "|" +:+ sessionID conversationID) = None →
     heap s !! conv = None
     ∧ convs s1 = <[userKey +:+ "|" +:+ sessionID conversationID := conv]> (convs s)
     ∧ ∃ c, heap s1 = <[conv := c]> (heap s)
            ∧ UserKey c = userKey ∧ ConversationID c = sessionID conversationID)
  ∧ ((∀ key p, convs s !! key = Some p → is_Some (heap s !! p)) →
     is_Some (heap s1 !! conv))
  ∧ GetConversation env2 userKey conversationID s1 = (inr conv, s1).
Proof.
  intros Hget.
  destruct (GetConversation_cases _ _ _ _ _ _ Hget)
    as [(conv0 & Hkey & [= <-] & ->)|[(_ & e & ? & _)|(Hkey & Hnew)]]; [| done |].
  - split_and!.
    + done.
    + intros conv1 Hkey1. split; [congruence | done].
    + intros Hnone. congruence.
    + intros Hheap. by eapply Hheap.
    + unfold GetConversation. fold (sessionID conversationID). by rewrite Hkey.
  - destruct Hnew as (s0 & o & m & internalID & history & Huser & _ & [= ->] & ->).
    destruct (getOrCreateUser_frame _ _ _ _ _ Huser) as [Hheap Hconvs].
    split_and!.
    + simpl. by rewrite lookup_insert_eq.
    + intros conv0 Hkey0. congruence.
    + intros _. split_and!.
      * rewrite <- Hheap. apply fresh_not_in_heap.
      * simpl. by rewrite Hconvs.
      * eexists. simpl. rewrite Hheap. by split_and!.
    + intros _. simpl. by rewrite lookup_insert_eq.
    + unfold GetConversation. fold (sessionID conversationID). simpl.
      by rewrite lookup_insert_eq.
Qed.

Lemma C8_witness :
  ∃ conv s1,
    GetConversation calmEnv "alice" "" emptyStore = (inr conv, s1)
    ∧ convs s1 !! "alice|default" = Some conv
    ∧ GetConversation calmEnv "alice" "" s1 = (inr conv, s1).
Proof.
  destruct (GetConversation calmEnv "alice" "" emptyStore) as [[err|conv] s1] eqn:Hget.
  - exfalso. vm_compute in Hget. discriminate.
  - exists conv, s1. split; [reflexivity|].
    destruct (C8_get_conversation_twice calmEnv calmEnv "alice" "" emptyStore s1 conv Hget)
      as (Hentry & _ & _ & _ & Hagain).
    split; [exact Hentry | exact Hagain].
Defined.
